(** * SignalGP base hardware: thread lifecycle and priority admission

    A shallow embedding of [BaseSignalGP] (source/SignalGPBase.h): the thread
    pool, the thread-state index (active set, pending queue, unused stack,
    execution order), spawning, the admission controller
    [ActivatePendingThreads], [BaseResetState], the written part of
    [SingleProcess], and [Process].

    Conventions of the embedding.
    - Thread ids, container sizes and indices are [nat]; the one place where
      the width of [size_t] shows, the sentinel [(size_t)-1] stored in
      [cur_thread_id], is a [Z] with the wrap-around written out.
    - A priority is a [double] in the source.  The host only copies and
      compares priorities; comparison of finite doubles is exact, so a
      priority is modelled by the rational it denotes ([Q]); NaN is not
      modelled.
    - [emp_assert] and the bounds check of [emp::vector::operator[]] are
      modelled as they behave in a debug build: a violated assertion ends the
      call with [Fail].
    - [std::unordered_set<size_t>] is a [gset nat]; where the source iterates
      over it the model iterates over [elements]; the heap built from the
      active set is shown not to depend on that order.
    - The header is work in progress and a few lines do not type-check as
      C++; each such line is translated by what its statements say and is
      flagged where it is embedded. *)

From Stdlib Require Import QArith ZArith Lia List Sorted.
From stdpp Require Import base list gmap sets.

(** ** Machine integers *)

Definition size_t_bits : Z := 64.

(** Conversion of an integer to [size_t] (reduction modulo [2^64]). *)
Definition to_size_t (z : Z) : Z := z mod 2 ^ size_t_bits.

(** [std::numeric_limits<size_t>::max()]. *)
Definition size_t_max : Z := 2 ^ size_t_bits - 1.

(** [THREAD_LIMIT = std::numeric_limits<size_t>::max() - 1]. *)
Definition THREAD_LIMIT : Z := size_t_max - 1.

(** The value [(size_t)-1] that [cur_thread_id] holds when no thread is
    executing. *)
Definition NO_THREAD : Z := to_size_t (-1).

(** ** Priorities *)

(** [a < b] on priorities, as a boolean. [a > b] in the source is [Qltb b a]. *)
Definition Qltb (a b : Q) : bool :=
  match (a ?= b)%Q with Lt => true | _ => false end.

(** ** Failures *)

(** The assertion that ended a call. *)
Inductive failure : Type :=
| IndexOutOfRange      (* emp_assert(thread_id < threads.size()), vector bounds *)
| ThreadNotPending     (* emp_assert(threads[thread_id].IsPending()) *)
| ResetWhileExecuting  (* "Cannot reset hardware while executing." *)
| NotExecuting         (* "Hardware is not executing! No current thread." *)
| TooManyActive        (* emp_assert(active_threads.size() <= max_active_threads) *)
| EmptyContainer       (* front() or back() of an empty container *)
| Unfinished           (* emp_assert(false) in a stub *)
| OutOfFuel.           (* the event drain did not finish within the given fuel *)

Inductive result (A : Type) : Type :=
| Ok (a : A)
| Fail (e : failure).
Arguments Ok {A} a.
Arguments Fail {A} e.

#[global] Instance result_ret : MRet result := fun A a => Ok a.

#[global] Instance result_bind : MBind result := fun A B k m =>
  match m with
  | Ok a => k a
  | Fail e => Fail e
  end.

(** [emp_assert(c)]. *)
Definition emp_assert (c : bool) (e : failure) : result unit :=
  if c then Ok tt else Fail e.

(** ** Events *)

Record BaseEvent : Type := mkEvent { id : nat }.

Definition GetID (ev : BaseEvent) : nat := id ev.

(** ** Thread states *)

Inductive ThreadState : Type := RUNNING | DEAD | PENDING.

Definition ThreadState_eqb (a b : ThreadState) : bool :=
  match a, b with
  | RUNNING, RUNNING | DEAD, DEAD | PENDING, PENDING => true
  | _, _ => false
  end.

#[global] Instance ThreadState_eq_dec : EqDecision ThreadState.
Proof. solve_decision. Defined.

(** ** The min-heap of active priorities *)

(** An entry [std::tuple<double, size_t>]: a priority and a thread id. *)
Abbreviation heap_entry := (Q * nat)%type.

(** [operator<] of [std::tuple<double, size_t>]: lexicographic. *)
Definition tuple_ltb (a b : heap_entry) : bool :=
  Qltb a.1 b.1 || (negb (Qltb b.1 a.1) && (a.2 <? b.2)).

(** [std::priority_queue<tuple, vector<tuple>, std::greater<tuple>>]: a queue
    whose top is the least entry.  It is kept as the list of its entries in
    ascending order. *)
Abbreviation priority_queue := (list heap_entry).

Fixpoint pq_emplace (x : heap_entry) (q : priority_queue) : priority_queue :=
  match q with
  | [] => [x]
  | y :: q' => if tuple_ltb x y then x :: y :: q' else y :: pq_emplace x q'
  end.

Definition pq_top (q : priority_queue) : option heap_entry := head q.

Definition pq_pop (q : priority_queue) : priority_queue := tail q.

Section BaseSignalGP.

(** The template parameters [EXEC_STATE_T] and [CUSTOM_COMPONENT_T], the event
    library behind [Ptr<event_lib_t>], and what the host asks of them. *)
Context {exec_state_t custom_comp_t event_lib_t : Type}.
Variable exec_state_default : exec_state_t.        (* exec_state_t() *)
Variable Clear : exec_state_t -> exec_state_t.     (* exec_state.Clear() *)
Variable custom_comp_default : custom_comp_t.

(** ** Threads *)

Record Thread : Type := mkThread {
  exec_state : exec_state_t;
  priority : Q;
  run_state : ThreadState
}.

(** [Thread(const exec_state_t & = exec_state_t(), double _priority = 1.0)].
    (The initialiser list of the source lacks a comma before [run_state].) *)
Definition Thread_new : Thread :=
  {| exec_state := exec_state_default; priority := 1%Q; run_state := DEAD |}.

Definition Thread_Reset (t : Thread) : Thread :=
  {| exec_state := Clear (exec_state t); priority := 1%Q; run_state := DEAD |}.

Definition SetDead (t : Thread) : Thread :=
  {| exec_state := exec_state t; priority := priority t; run_state := DEAD |}.
Definition IsDead (t : Thread) : bool := ThreadState_eqb (run_state t) DEAD.

Definition SetPending (t : Thread) : Thread :=
  {| exec_state := exec_state t; priority := priority t; run_state := PENDING |}.
Definition IsPending (t : Thread) : bool := ThreadState_eqb (run_state t) PENDING.

Definition SetRunning (t : Thread) : Thread :=
  {| exec_state := exec_state t; priority := priority t; run_state := RUNNING |}.
Definition IsRunning (t : Thread) : bool := ThreadState_eqb (run_state t) RUNNING.

Definition GetPriority (t : Thread) : Q := priority t.
Definition SetPriority (p : Q) (t : Thread) : Thread :=
  {| exec_state := exec_state t; priority := p; run_state := run_state t |}.

(** [InitThread(thread_t &, size_t module_id)] of the derived hardware: it
    installs a call to the module on the thread it is handed. *)
Variable InitThread : Thread -> nat -> Thread.

(** ** The hardware state (the data members of [BaseSignalGP]; the three
    print closures are left out) *)

Record Host : Type := mkHost {
  event_lib : event_lib_t;
  event_queue : list BaseEvent;        (* std::deque<event_t>, front first *)
  max_active_threads : nat;
  max_thread_space : nat;
  threads : list Thread;               (* emp::vector<thread_t> *)
  thread_exec_order : list nat;        (* emp::vector<size_t> *)
  active_threads : gset nat;           (* std::unordered_set<size_t> *)
  unused_threads : list nat;           (* emp::vector<size_t>, back last *)
  pending_threads : list nat;          (* std::deque<size_t>, front first *)
  cur_thread_id : Z;
  is_executing : bool;
  custom_component : custom_comp_t
}.

Definition with_event_queue (q : list BaseEvent) (hw : Host) : Host :=
  mkHost (event_lib hw) q (max_active_threads hw) (max_thread_space hw)
    (threads hw) (thread_exec_order hw) (active_threads hw) (unused_threads hw)
    (pending_threads hw) (cur_thread_id hw) (is_executing hw) (custom_component hw).

Definition with_threads (ts : list Thread) (hw : Host) : Host :=
  mkHost (event_lib hw) (event_queue hw) (max_active_threads hw) (max_thread_space hw)
    ts (thread_exec_order hw) (active_threads hw) (unused_threads hw)
    (pending_threads hw) (cur_thread_id hw) (is_executing hw) (custom_component hw).

Definition with_thread_exec_order (o : list nat) (hw : Host) : Host :=
  mkHost (event_lib hw) (event_queue hw) (max_active_threads hw) (max_thread_space hw)
    (threads hw) o (active_threads hw) (unused_threads hw)
    (pending_threads hw) (cur_thread_id hw) (is_executing hw) (custom_component hw).

Definition with_active_threads (a : gset nat) (hw : Host) : Host :=
  mkHost (event_lib hw) (event_queue hw) (max_active_threads hw) (max_thread_space hw)
    (threads hw) (thread_exec_order hw) a (unused_threads hw)
    (pending_threads hw) (cur_thread_id hw) (is_executing hw) (custom_component hw).

Definition with_unused_threads (u : list nat) (hw : Host) : Host :=
  mkHost (event_lib hw) (event_queue hw) (max_active_threads hw) (max_thread_space hw)
    (threads hw) (thread_exec_order hw) (active_threads hw) u
    (pending_threads hw) (cur_thread_id hw) (is_executing hw) (custom_component hw).

Definition with_pending_threads (p : list nat) (hw : Host) : Host :=
  mkHost (event_lib hw) (event_queue hw) (max_active_threads hw) (max_thread_space hw)
    (threads hw) (thread_exec_order hw) (active_threads hw) (unused_threads hw)
    p (cur_thread_id hw) (is_executing hw) (custom_component hw).

Definition with_cur_thread_id (c : Z) (hw : Host) : Host :=
  mkHost (event_lib hw) (event_queue hw) (max_active_threads hw) (max_thread_space hw)
    (threads hw) (thread_exec_order hw) (active_threads hw) (unused_threads hw)
    (pending_threads hw) c (is_executing hw) (custom_component hw).

Definition with_is_executing (b : bool) (hw : Host) : Host :=
  mkHost (event_lib hw) (event_queue hw) (max_active_threads hw) (max_thread_space hw)
    (threads hw) (thread_exec_order hw) (active_threads hw) (unused_threads hw)
    (pending_threads hw) (cur_thread_id hw) b (custom_component hw).

Definition with_custom_component (c : custom_comp_t) (hw : Host) : Host :=
  mkHost (event_lib hw) (event_queue hw) (max_active_threads hw) (max_thread_space hw)
    (threads hw) (thread_exec_order hw) (active_threads hw) (unused_threads hw)
    (pending_threads hw) (cur_thread_id hw) (is_executing hw) c.

(** [HandleEvent(hardware, event)] of the event library.  A handler runs on
    the hardware and may change it (spawn threads, queue events). *)
Variable lib_HandleEvent : event_lib_t -> BaseEvent -> Host -> result Host.

(** ** Access to the pool *)

(** [threads[i]] read: the bounds check of [emp::vector] (and the
    [emp_assert(i < threads.size())] that precedes most uses). *)
Definition GetThread (i : nat) (hw : Host) : result Thread :=
  match threads hw !! i with
  | Some t => Ok t
  | None => Fail IndexOutOfRange
  end.

(** [threads[i].f()] for a mutator [f] of [Thread]. *)
Definition update_thread (i : nat) (f : Thread -> Thread) (hw : Host) : result Host :=
  t ← GetThread i hw;
  Ok (with_threads (<[i := f t]> (threads hw)) hw).

(** [pending_threads.pop_front()]. *)
Definition pop_pending (hw : Host) : Host :=
  with_pending_threads (tail (pending_threads hw)) hw.

(** ** ActivateThread and KillThread (lines 171-185) *)

Definition ActivateThread (thread_id : nat) (hw : Host) : result Host :=
  _ ← emp_assert (thread_id <? length (threads hw)) IndexOutOfRange;
  let hw := with_active_threads ({[thread_id]} ∪ active_threads hw) hw in
  let hw := with_thread_exec_order (thread_exec_order hw ++ [thread_id]) hw in
  update_thread thread_id SetRunning hw.

(** Does not remove the id from the execution order. *)
Definition KillThread (thread_id : nat) (hw : Host) : result Host :=
  _ ← emp_assert (thread_id <? length (threads hw)) IndexOutOfRange;
  let hw := with_active_threads (active_threads hw ∖ {[thread_id]}) hw in
  update_thread thread_id SetDead hw.

(** ** ActivatePendingThreads (lines 187-260)

    The function returns nothing in the source.  The model returns, beside the
    new state, the ids [KillThread] was called on, in call order, so that the
    statements below can speak about which threads a round kills. *)

(** Lines 195-203: spawn pending threads (in order of arrival) until no more
    room.  [pend] is [pending_threads]; every iteration pops it in the state
    as well. *)
Fixpoint fill_capacity (pend : list nat) (hw : Host) : result Host :=
  match pend with
  | [] => Ok hw
  | thread_id :: rest =>
      if size (active_threads hw) <? max_active_threads hw then
        thread ← GetThread thread_id hw;
        _ ← emp_assert (IsPending thread) ThreadNotPending;
        hw ← ActivateThread thread_id hw;
        fill_capacity rest (pop_pending hw)
      else Ok hw
  end.

(** Lines 214-219: the loop that raises [max_pending_priority]. *)
Fixpoint raise_max_priority (pend : list nat) (max_pending_priority : Q)
    (hw : Host) : result Q :=
  match pend with
  | [] => Ok max_pending_priority
  | thread_id :: rest =>
      thread ← GetThread thread_id hw;
      _ ← emp_assert (IsPending thread) ThreadNotPending;
      let priority := GetPriority thread in
      raise_max_priority rest
        (if Qltb max_pending_priority priority then priority
         else max_pending_priority) hw
  end.

(** Lines 213-219.  Line 213 reads [pending_threads.front().GetPriority()] and
    declares the variable [const]; neither type-checks.  It is translated as
    the priority of the thread whose id is at the front of the queue, and the
    assignment of line 218 as an assignment. *)
Definition find_max_pending_priority (hw : Host) : result Q :=
  match pending_threads hw with
  | [] => Fail EmptyContainer
  | front :: _ =>
      thread ← GetThread front hw;
      raise_max_priority (pending_threads hw) (GetPriority thread) hw
  end.

(** Lines 226-232: the min-heap of the active threads whose priority is below
    [max_pending_priority]; [ids] are the elements of [active_threads] in
    iteration order. *)
Fixpoint collect_active_priorities (ids : list nat) (max_pending_priority : Q)
    (hw : Host) (active_priorities : priority_queue) : result priority_queue :=
  match ids with
  | [] => Ok active_priorities
  | active_id :: rest =>
      thread ← GetThread active_id hw;
      collect_active_priorities rest max_pending_priority hw
        (if Qltb (GetPriority thread) max_pending_priority
         then pq_emplace (GetPriority thread, active_id) active_priorities
         else active_priorities)
  end.

(** Lines 236-251: active threads in order of least priority against pending
    threads in order of arrival.  [evict_body] is the body of the loop for the
    pending id at the front of the queue and the id on top of the heap (line
    238 reads it off the tuple with [.get<1>()]); it also yields the id it
    killed, if any. *)
Definition evict_body (pending_id active_id : nat)
    (active_priorities : priority_queue) (hw : Host)
    : result (priority_queue * Host * list nat) :=
  pending ← GetThread pending_id hw;
  active ← GetThread active_id hw;
  if Qltb (GetPriority active) (GetPriority pending) then
    (* Remove active priority from heap, kill active, activate pending. *)
    hw ← KillThread active_id hw;
    hw ← ActivateThread pending_id hw;
    Ok (pq_pop active_priorities, pop_pending hw, [active_id])
  else
    (* This pending thread won't replace any active threads. *)
    hw ← update_thread pending_id SetDead (pop_pending hw);
    Ok (active_priorities, hw, []).

Fixpoint evict_loop (pend : list nat) (active_priorities : priority_queue)
    (hw : Host) (killed : list nat) : result (Host * list nat) :=
  match pend, pq_top active_priorities with
  | pending_id :: rest, Some (_, active_id) =>
      '(active_priorities, hw, k) ←
        evict_body pending_id active_id active_priorities hw;
      evict_loop rest active_priorities hw (killed ++ k)
  | _, _ => Ok (hw, killed)
  end.

(** Lines 255-259: leftover pending threads are marked dead and dropped. *)
Fixpoint reject_leftovers (pend : list nat) (hw : Host) : result Host :=
  match pend with
  | [] => Ok hw
  | pending_id :: rest =>
      hw ← update_thread pending_id SetDead hw;
      reject_leftovers rest (pop_pending hw)
  end.

Definition ActivatePendingThreads (hw : Host) : result (Host * list nat) :=
  if bool_decide (pending_threads hw = []) then Ok (hw, []) else
  hw ← fill_capacity (pending_threads hw) hw;
  if bool_decide (pending_threads hw = []) then Ok (hw, []) else
  max_pending_priority ← find_max_pending_priority hw;
  active_priorities ←
    collect_active_priorities (elements (active_threads hw))
      max_pending_priority hw [];
  '(hw, killed) ← evict_loop (pending_threads hw) active_priorities hw [];
  hw ← reject_leftovers (pending_threads hw) hw;
  Ok (hw, killed).

(** Lines 236-259 on their own: the round from the point where the heap is
    built. *)
Definition evict_and_reject (active_priorities : priority_queue) (hw : Host)
    : result (Host * list nat) :=
  '(hw, killed) ← evict_loop (pending_threads hw) active_priorities hw [];
  hw ← reject_leftovers (pending_threads hw) hw;
  Ok (hw, killed).

(** ** Construction and reset (lines 263-324) *)

(** The loop [unused_threads[i] = (unused_threads.size() - 1) - i] over a
    vector of [n] ids. *)
Definition all_unused (n : nat) : list nat :=
  (λ i, (n - 1) - i) <$> seq 0 n.

(** [BaseSignalGP(Ptr<event_lib_t> elib)], with the default member
    initialisers [max_active_threads=64] and [max_thread_space=512]. *)
Definition BaseSignalGP_new (elib : event_lib_t) : Host :=
  let max_active_threads := 64 in
  let max_thread_space := 512 in
  let threads :=
    replicate (if 2 * max_active_threads <? max_thread_space
               then 2 * max_active_threads else max_thread_space) Thread_new in
  {| event_lib := elib;
     event_queue := [];
     max_active_threads := max_active_threads;
     max_thread_space := max_thread_space;
     threads := threads;
     thread_exec_order := [];
     active_threads := ∅;
     unused_threads := all_unused (length threads);
     pending_threads := [];
     cur_thread_id := NO_THREAD;
     is_executing := false;
     custom_component := custom_comp_default |}.

Definition BaseResetState (hw : Host) : result Host :=
  _ ← emp_assert (negb (is_executing hw)) ResetWhileExecuting;
  let hw := with_event_queue [] hw in
  let hw := with_threads (Thread_Reset <$> threads hw) hw in
  let hw := with_thread_exec_order [] hw in
  let hw := with_active_threads ∅ hw in
  let hw := with_pending_threads [] hw in
  let hw := with_unused_threads (all_unused (length (threads hw))) hw in
  let hw := with_cur_thread_id NO_THREAD hw in
  Ok (with_is_executing false hw).

(** ** Accessors (lines 326-386) *)

Definition GetCustomComponent (hw : Host) : custom_comp_t := custom_component hw.
Definition SetCustomComponent (val : custom_comp_t) (hw : Host) : Host :=
  with_custom_component val hw.
Definition GetMaxActiveThreads (hw : Host) : nat := max_active_threads hw.
Definition GetMaxThreadSpace (hw : Host) : nat := max_thread_space hw.
Definition GetNumActiveThreads (hw : Host) : nat := size (active_threads hw).
Definition GetNumPendingThreads (hw : Host) : nat := length (pending_threads hw).
Definition GetNumUnusedThreads (hw : Host) : nat := length (unused_threads hw).
Definition GetCurThreadID (hw : Host) : Z := cur_thread_id hw.

Definition GetCurThread (hw : Host) : result Thread :=
  _ ← emp_assert (is_executing hw) NotExecuting;
  _ ← emp_assert (cur_thread_id hw <? Z.of_nat (length (threads hw)))%Z IndexOutOfRange;
  GetThread (Z.to_nat (cur_thread_id hw)) hw.

(** ** SpawnThreadWithID (lines 428-460) *)

Definition SpawnThreadWithID (module_id : nat) (priority : Q) (hw : Host)
    : result (option nat * Host) :=
  let choice :=
    match last (unused_threads hw) with
    | Some thread_id =>
        (* Unused thread is available, use it. *)
        Some (thread_id, with_unused_threads (removelast (unused_threads hw)) hw)
    | None =>
        if length (threads hw) <? max_thread_space hw then
          (* No unused threads available, but space to make a new one. *)
          Some (length (threads hw), with_threads (threads hw ++ [Thread_new]) hw)
        else None
    end in
  match choice with
  | None => Ok (None, hw)
  | Some (thread_id, hw) =>
      _ ← emp_assert (thread_id <? length (threads hw)) IndexOutOfRange;
      thread ← GetThread thread_id hw;
      let thread := Thread_Reset thread in
      let thread := SetPriority priority thread in
      let thread := InitThread thread module_id in
      let thread := SetPending thread in
      let hw := with_threads (<[thread_id := thread]> (threads hw)) hw in
      let hw := with_pending_threads (pending_threads hw ++ [thread_id]) hw in
      Ok (Some thread_id, hw)
  end.

(** The thread lines 448-456 leave in the pool, from the thread they
    commandeer. *)
Definition started (module_id : nat) (priority : Q) (thread : Thread) : Thread :=
  SetPending (InitThread (SetPriority priority (Thread_Reset thread)) module_id).

(** ** Events and the tick (lines 462-503) *)

Definition HandleEvent (event : BaseEvent) (hw : Host) : result Host :=
  lib_HandleEvent (event_lib hw) event hw.

Definition QueueEvent (event : BaseEvent) (hw : Host) : Host :=
  with_event_queue (event_queue hw ++ [event]) hw.

(** Lines 475-478.  A handler may queue further events, so the loop need not
    end; [fuel] bounds the number of events handled. *)
Fixpoint handle_events (fuel : nat) (hw : Host) : result Host :=
  match event_queue hw with
  | [] => Ok hw
  | event :: _ =>
      match fuel with
      | O => Fail OutOfFuel
      | S fuel =>
          hw ← HandleEvent event hw;
          handle_events fuel (with_event_queue (tail (event_queue hw)) hw)
      end
  end.

(** Lines 474-485 of [SingleProcess]: the part of the tick that is written.
    Events are handled, pending threads are admitted, and the executing flag
    is raised. *)
Definition SingleProcess_begin (fuel : nat) (hw : Host) : result Host :=
  hw ← handle_events fuel hw;
  '(hw, _) ← ActivatePendingThreads hw;
  _ ← emp_assert (size (active_threads hw) <=? max_active_threads hw) TooManyActive;
  Ok (with_is_executing true hw).

(** [SingleProcess].  After line 485 the source is a stub: a loop with an
    empty body over an undeclared bound, then [emp_assert(false)].  Control
    never leaves it normally. *)
Definition SingleProcess (fuel : nat) (hw : Host) : result Host :=
  hw ← SingleProcess_begin fuel hw;
  Fail Unfinished.


(** ** Operations as data *)

(** The member functions of the public interface that change the hardware and
    are written in the source.  ([SpawnThreads], [SpawnThreadWithTag] and
    [SetThreadLimit] are stubs that assert [false].) *)
Inductive host_op : Type :=
| OpBaseResetState
| OpSpawnThreadWithID (module_id : nat) (priority : Q)
| OpQueueEvent (event : BaseEvent)
| OpSetCustomComponent (val : custom_comp_t)
| OpSingleProcess (fuel : nat).

Definition run_op (o : host_op) (hw : Host) : result Host :=
  match o with
  | OpBaseResetState => BaseResetState hw
  | OpSpawnThreadWithID module_id priority =>
      '(_, hw) ← SpawnThreadWithID module_id priority hw; Ok hw
  | OpQueueEvent event => Ok (QueueEvent event hw)
  | OpSetCustomComponent val => Ok (SetCustomComponent val hw)
  | OpSingleProcess fuel => SingleProcess fuel hw
  end.

(** The public operations that write a priority or an execution state. *)
Definition changes_payload (o : host_op) : bool :=
  match o with
  | OpBaseResetState | OpSpawnThreadWithID _ _ => true
  | _ => false
  end.

(** The protected scheduling functions. *)
Inductive sched_op : Type :=
| OpActivateThread (thread_id : nat)
| OpKillThread (thread_id : nat)
| OpActivatePendingThreads.

Definition run_sched_op (o : sched_op) (hw : Host) : result Host :=
  match o with
  | OpActivateThread thread_id => ActivateThread thread_id hw
  | OpKillThread thread_id => KillThread thread_id hw
  | OpActivatePendingThreads => '(hw, _) ← ActivatePendingThreads hw; Ok hw
  end.

(** The states the public interface can bring a freshly constructed hardware
    to. *)
Inductive reachable : Host -> Prop :=
| reachable_new (elib : event_lib_t) : reachable (BaseSignalGP_new elib)
| reachable_op (o : host_op) (hw hw' : Host) :
    reachable hw -> run_op o hw = Ok hw' -> reachable hw'.

(** ** Predicates on the hardware state *)

Definition state_of (hw : Host) (i : nat) : option ThreadState :=
  run_state <$> threads hw !! i.

Definition priority_of (hw : Host) (i : nat) : option Q :=
  priority <$> threads hw !! i.

(** What [ActivatePendingThreads] assumes of the index ("Assumes active
    threads is accurate", "all pending threads + active threads should have
    unique ids"). *)
Definition index_consistent (hw : Host) : Prop :=
  (∀ i, i ∈ active_threads hw -> state_of hw i = Some RUNNING) ∧
  (∀ i, i ∈ pending_threads hw -> state_of hw i = Some PENDING) ∧
  NoDup (pending_threads hw).

(** The index agrees with the run states: a thread is RUNNING iff its id is
    in the active set and PENDING iff its id is in the pending queue; the
    active set, the pending queue and the unused stack are pairwise disjoint;
    the active set is within its bound. *)
Record index_invariant (hw : Host) : Prop := {
  idx_running : ∀ i t, threads hw !! i = Some t ->
    (run_state t = RUNNING ↔ i ∈ active_threads hw);
  idx_pending : ∀ i t, threads hw !! i = Some t ->
    (run_state t = PENDING ↔ i ∈ pending_threads hw);
  idx_active_pending : ∀ i, i ∈ active_threads hw -> i ∉ pending_threads hw;
  idx_active_unused : ∀ i, i ∈ active_threads hw -> i ∉ unused_threads hw;
  idx_pending_unused : ∀ i, i ∈ pending_threads hw -> i ∉ unused_threads hw;
  idx_active_bound : size (active_threads hw) ≤ max_active_threads hw;
  (* what the operations rely on besides *)
  idx_active_in_pool : ∀ i, i ∈ active_threads hw -> i < length (threads hw);
  idx_pending_in_pool : ∀ i, i ∈ pending_threads hw -> i < length (threads hw);
  idx_unused_in_pool : ∀ i, i ∈ unused_threads hw -> i < length (threads hw);
  idx_pending_nodup : NoDup (pending_threads hw);
  idx_unused_nodup : NoDup (unused_threads hw);
  idx_pool_bound : length (threads hw) ≤ max_thread_space hw;
  idx_active_in_order : ∀ i, i ∈ active_threads hw -> i ∈ thread_exec_order hw
}.

(** The id of a DEAD thread is in the unused stack or in the execution
    order. *)
Definition dead_accounted (hw : Host) : Prop :=
  ∀ i t, threads hw !! i = Some t -> run_state t = DEAD ->
    i ∈ unused_threads hw ∨ i ∈ thread_exec_order hw.

(** The invariant of the thread-state index. *)
Definition host_invariant (hw : Host) : Prop :=
  index_invariant hw ∧ dead_accounted hw.

(** No thread's priority or execution state differs between two states. *)
Definition same_payload (hw hw' : Host) : Prop :=
  priority <$> threads hw' = priority <$> threads hw ∧
  exec_state <$> threads hw' = exec_state <$> threads hw.

(** Two states differ at most in the run states of the threads and in the
    active set, the pending queue and the execution order. *)
Definition same_outside_index (hw hw' : Host) : Prop :=
  event_lib hw' = event_lib hw ∧
  event_queue hw' = event_queue hw ∧
  max_active_threads hw' = max_active_threads hw ∧
  max_thread_space hw' = max_thread_space hw ∧
  unused_threads hw' = unused_threads hw ∧
  cur_thread_id hw' = cur_thread_id hw ∧
  is_executing hw' = is_executing hw ∧
  custom_component hw' = custom_component hw.

Definition frame (hw hw' : Host) : Prop :=
  same_payload hw hw' ∧ same_outside_index hw hw'.

(** [index_consistent], decided. *)
Definition index_consistentb (hw : Host) : bool :=
  bool_decide (Forall (λ i, state_of hw i = Some RUNNING)
                 (elements (active_threads hw))) &&
  bool_decide (Forall (λ i, state_of hw i = Some PENDING) (pending_threads hw)) &&
  bool_decide (NoDup (pending_threads hw)).

(** No pending thread has a priority strictly above that of an active
    thread. *)
Definition no_pending_above_active (hw : Host) : Prop :=
  ∀ i j p q, i ∈ pending_threads hw -> j ∈ active_threads hw ->
    priority_of hw i = Some p -> priority_of hw j = Some q -> (p <= q)%Q.

(** A round of admission on [hw] calls [KillThread] on no thread. *)
Definition kills_nothing (hw : Host) : Prop :=
  ∀ hw' killed, ActivatePendingThreads hw = Ok (hw', killed) -> killed = [].

(** [p] is the greatest priority among the threads of [ids]. *)
Definition is_max_priority (hw : Host) (ids : list nat) (p : Q) : Prop :=
  (∃ i, i ∈ ids ∧ priority_of hw i = Some p) ∧
  (∀ i q, i ∈ ids -> priority_of hw i = Some q -> (q <= p)%Q).

(** The heap holds exactly the active threads of priority below [p], each
    under its priority. *)
Definition heap_holds (hw : Host) (p : Q) (heap : priority_queue) : Prop :=
  ∀ q i, (q, i) ∈ heap ↔
    i ∈ active_threads hw ∧ priority_of hw i = Some q ∧ (q < p)%Q.

(** What the eviction loop maintains of its heap: distinct ids, each of an
    active thread. *)
Definition heap_of_active (heap : priority_queue) (hw : Host) : Prop :=
  NoDup heap.*2 ∧ ∀ i, i ∈ heap.*2 -> i ∈ active_threads hw.

(** What [ActivateThread] leaves to its callers ("guarantee that thread_id
    not already in thread_exec order"): the execution order lists no id
    twice, and the ids it lists are ids of the pool that are neither unused
    nor pending. *)
Definition exec_order_invariant (hw : Host) : Prop :=
  NoDup (thread_exec_order hw) ∧
  ∀ i, i ∈ thread_exec_order hw ->
    i < length (threads hw) ∧ (i ∉ unused_threads hw) ∧ (i ∉ pending_threads hw).

(** ** Callers *)

(** A caller that spawns one thread per request (a module id and a
    priority), in order, and collects what [SpawnThreadWithID] returns. *)
Fixpoint spawn_all (requests : list (nat * Q)) (hw : Host)
    : result (list (option nat) * Host) :=
  match requests with
  | [] => Ok ([], hw)
  | (module_id, priority) :: rest =>
      '(r, hw) ← SpawnThreadWithID module_id priority hw;
      '(rs, hw) ← spawn_all rest hw;
      Ok (r :: rs, hw)
  end.

(** The events of [events] handled one after the other, front to back; when
    one is handled, it and the ones behind it are what is queued. *)
Fixpoint handle_in_order (events : list BaseEvent) (hw : Host) : result Host :=
  match events with
  | [] => Ok hw
  | event :: rest =>
      hw ← HandleEvent event (with_event_queue (event :: rest) hw);
      handle_in_order rest (with_event_queue rest hw)
  end.

End BaseSignalGP.

(** The entries of a queue in ascending order: no entry is below one that
    precedes it. *)
Definition pq_sorted (q : priority_queue) : Prop :=
  StronglySorted (λ a b, tuple_ltb b a = false) q.

(** ** Scenario hardware

    A hardware whose execution state is the id of the module a thread was
    started on, with an event library that ignores every event. *)
Module Scenario.

Definition thread : Type := @Thread nat.
Definition host : Type := @Host nat unit unit.

Definition Clear (e : nat) : nat := 0.
Definition InitThread (t : thread) (module_id : nat) : thread :=
  {| exec_state := module_id; priority := priority t; run_state := run_state t |}.
Definition lib_HandleEvent (lib : unit) (ev : BaseEvent) (hw : host) : result host :=
  Ok hw.

Definition th (p : Q) (s : ThreadState) : thread :=
  {| exec_state := 0; priority := p; run_state := s |}.

(** A hardware with the given limits, pool, execution order, active ids,
    unused stack and pending queue; nothing queued, not executing. *)
Definition hardware (max_active max_space : nat) (pool : list thread)
    (order active unused pending : list nat) : host :=
  {| event_lib := tt; event_queue := [];
     max_active_threads := max_active; max_thread_space := max_space;
     threads := pool; thread_exec_order := order;
     active_threads := list_to_set active;
     unused_threads := unused; pending_threads := pending;
     cur_thread_id := NO_THREAD; is_executing := false;
     custom_component := tt |}.

(** S1: [max_active=4], three threads spawned at priority 1. *)
Definition s1 : host :=
  hardware 4 8 [th 1 PENDING; th 1 PENDING; th 1 PENDING; th 1 DEAD]
    [] [] [3] [0; 1; 2].

(** S3: [max_active=1], A active at 2, B pending at 2. *)
Definition s3 : host :=
  hardware 1 4 [th 2 RUNNING; th 2 PENDING] [0] [0] [] [1].

(** S4: [max_active=2], A:1 and B:3 active, C:2 pending. *)
Definition s4 : host :=
  hardware 2 4 [th 1 RUNNING; th 3 RUNNING; th 2 PENDING] [0; 1] [0; 1] [] [2].

(** S5: [max_active=1], A:5 active, B:6 then C:7 pending. *)
Definition s5 : host :=
  hardware 1 4 [th 5 RUNNING; th 6 PENDING; th 7 PENDING] [0] [0] [] [1; 2].

(** S6: [max_thread_space=3], three threads spawned, none unused. *)
Definition s6 : host :=
  hardware 2 3 [th 1 PENDING; th 1 PENDING; th 1 PENDING] [] [] [] [0; 1; 2].

(** Nothing active, [max_active=1], A:1 then B:2 pending. *)
Definition two_pending : host :=
  hardware 1 4 [th 1 PENDING; th 2 PENDING] [] [] [] [0; 1].

(** S3 with the executing flag raised. *)
Definition s3_executing : host := with_is_executing true s3.

(** The state a call leaves, or the state it started from if it failed. *)
Definition state_after (r : result host) (hw : host) : host :=
  match r with Ok hw' => hw' | Fail _ => hw end.

(** A freshly constructed hardware; the same after one spawn; after a reset. *)
Definition fresh : host := BaseSignalGP_new 0 tt tt.
Definition run (o : host_op) (hw : host) : result host :=
  run_op 0 Clear InitThread lib_HandleEvent o hw.
Definition spawned : host :=
  state_after (run (OpSpawnThreadWithID 3 (5 # 2)) fresh) fresh.
Definition spawned_reset : host :=
  state_after (run OpBaseResetState spawned) spawned.

(** S4 and S5 after a round of admission. *)
Definition s4_admitted : host :=
  state_after (run_sched_op OpActivatePendingThreads s4) s4.
Definition s5_admitted : host :=
  state_after (run_sched_op OpActivatePendingThreads s5) s5.

End Scenario.

(** * Properties *)

(** ** Order on priorities and heap entries *)

Lemma Qltb_lt (a b : Q) : Qltb a b = true ↔ (a < b)%Q.
Proof.
  unfold Qltb. rewrite Qlt_alt. destruct (a ?= b)%Q; split; congruence.
Qed.

Lemma Qltb_ge (a b : Q) : Qltb a b = false ↔ (b <= a)%Q.
Proof.
  rewrite <- not_true_iff_false, Qltb_lt. split.
  - apply Qnot_lt_le.
  - apply Qle_not_lt.
Qed.

Lemma tuple_ltb_asym (a b : heap_entry) :
  tuple_ltb a b = true -> tuple_ltb b a = false.
Proof.
  unfold tuple_ltb. destruct a as [p i], b as [q j]; simpl.
  destruct (Qltb p q) eqn:Hpq, (Qltb q p) eqn:Hqp; simpl; try done.
  - apply Qltb_lt in Hpq, Hqp. exfalso. eapply Qlt_irrefl, Qlt_trans; eauto.
  - rewrite Nat.ltb_lt, Nat.ltb_ge. lia.
Qed.

Lemma tuple_ltb_true (a b : heap_entry) :
  tuple_ltb a b = true ↔ (a.1 < b.1)%Q ∨ ((a.1 <= b.1)%Q ∧ a.2 < b.2).
Proof.
  unfold tuple_ltb.
  rewrite orb_true_iff, andb_true_iff, negb_true_iff, Qltb_lt, Qltb_ge, Nat.ltb_lt.
  done.
Qed.

Lemma tuple_ltb_false (a b : heap_entry) :
  tuple_ltb a b = false ↔ (b.1 <= a.1)%Q ∧ ((b.1 < a.1)%Q ∨ b.2 ≤ a.2).
Proof.
  unfold tuple_ltb.
  rewrite orb_false_iff, andb_false_iff, negb_false_iff, Qltb_lt, Qltb_ge, Nat.ltb_ge.
  done.
Qed.

Lemma tuple_ltb_trans_ge (x y z : heap_entry) :
  tuple_ltb x y = true -> tuple_ltb z y = false -> tuple_ltb z x = false.
Proof.
  rewrite tuple_ltb_true, !tuple_ltb_false.
  intros [Hxy | [Hxy Hi]] [Hyz Hz].
  - split; [ eapply Qle_trans; [apply Qlt_le_weak|]; eauto | ].
    left. eapply Qlt_le_trans; eauto.
  - split; [ eapply Qle_trans; eauto | ].
    destruct Hz as [Hz | Hz].
    + left. eapply Qle_lt_trans; eauto.
    + destruct (Qlt_le_dec x.1 z.1) as [Hlt | Hle]; [by left |].
      right. lia.
Qed.

Lemma pq_emplace_elem (x y : heap_entry) (q : priority_queue) :
  y ∈ pq_emplace x q ↔ y = x ∨ y ∈ q.
Proof.
  induction q as [| z q IH]; simpl.
  - rewrite list_elem_of_singleton, elem_of_nil. tauto.
  - destruct (tuple_ltb x z).
    + rewrite elem_of_cons. done.
    + rewrite !elem_of_cons, IH. tauto.
Qed.

Lemma pq_emplace_sorted (x : heap_entry) (q : priority_queue) :
  pq_sorted q -> pq_sorted (pq_emplace x q).
Proof.
  unfold pq_sorted. induction 1 as [| z q Hq IH Hz]; simpl.
  - repeat constructor.
  - destruct (tuple_ltb x z) eqn:Hxz.
    + constructor; [by constructor |].
      constructor; [by apply tuple_ltb_asym |].
      eapply Forall_impl; [exact Hz |]. simpl. intros w Hw.
      eapply tuple_ltb_trans_ge; eauto.
    + constructor; [done |].
      apply Forall_forall. intros w Hw%pq_emplace_elem.
      destruct Hw as [-> | Hw]; [done |].
      rewrite Forall_forall in Hz. by apply Hz.
Qed.

(** The top of a sorted queue carries the least priority of the queue. *)
Lemma pq_sorted_top_least (e e' : heap_entry) (q : priority_queue) :
  pq_sorted (e :: q) -> e' ∈ e :: q -> (e.1 <= e'.1)%Q.
Proof.
  intros Hs Hin. apply elem_of_cons in Hin as [-> | Hin]; [apply Qle_refl |].
  apply StronglySorted_inv in Hs as [_ Hall].
  rewrite Forall_forall in Hall. specialize (Hall _ Hin).
  unfold tuple_ltb in Hall. apply orb_false_iff in Hall as [Hlt _].
  by apply Qltb_ge.
Qed.

Lemma pq_pop_sorted (q : priority_queue) : pq_sorted q -> pq_sorted (pq_pop q).
Proof.
  destruct q; simpl; [done |]. intros H. by apply StronglySorted_inv in H as [? _].
Qed.

(** Entries with different ids are comparable one way or the other. *)
Lemma tuple_ltb_total (x y : heap_entry) :
  x.2 ≠ y.2 -> tuple_ltb x y = negb (tuple_ltb y x).
Proof.
  intros Hne. unfold tuple_ltb.
  destruct (Qltb x.1 y.1) eqn:Hxy, (Qltb y.1 x.1) eqn:Hyx; simpl; try done.
  - apply Qltb_lt in Hxy, Hyx. exfalso. eapply Qlt_irrefl, Qlt_trans; eauto.
  - destruct (Nat.ltb_spec x.2 y.2), (Nat.ltb_spec y.2 x.2); simpl; (done || lia).
Qed.

Lemma tuple_ltb_trans (x y z : heap_entry) :
  tuple_ltb x y = true -> tuple_ltb y z = true -> tuple_ltb x z = true.
Proof.
  rewrite !tuple_ltb_true.
  intros [Hxy | [Hxy Hi]] [Hyz | [Hyz Hj]].
  - left. eapply Qlt_trans; eauto.
  - left. eapply Qlt_le_trans; eauto.
  - left. eapply Qle_lt_trans; eauto.
  - right. split; [eapply Qle_trans; eauto | lia].
Qed.

(** The queue does not depend on the order in which two entries are put in. *)
Lemma pq_emplace_comm (x y : heap_entry) (q : priority_queue) :
  x.2 ≠ y.2 ->
  pq_emplace x (pq_emplace y q) = pq_emplace y (pq_emplace x q).
Proof.
  intros Hne. pose proof (tuple_ltb_total x y Hne) as Htot.
  induction q as [| z q IH]; simpl.
  - rewrite Htot. by destruct (tuple_ltb y x).
  - destruct (tuple_ltb y z) eqn:Hyz, (tuple_ltb x z) eqn:Hxz; simpl;
      rewrite ?Hyz, ?Hxz.
    + rewrite Htot. by destruct (tuple_ltb y x).
    + destruct (tuple_ltb x y) eqn:Hxy; [| done].
      by rewrite (tuple_ltb_trans x y z) in Hxz.
    + destruct (tuple_ltb y x) eqn:Hyx; [| done].
      by rewrite (tuple_ltb_trans y x z) in Hyz.
    + by rewrite IH.
Qed.

(** ** The result monad *)

Lemma bind_Ok {A B : Type} (a : A) (k : A -> result B) : (Ok a ≫= k) = k a.
Proof. reflexivity. Qed.

Lemma bind_Ok_inv {A B : Type} (m : result A) (k : A -> result B) (b : B) :
  (m ≫= k) = Ok b -> ∃ a, m = Ok a ∧ k a = Ok b.
Proof. destruct m as [a | e]; [eauto | discriminate]. Qed.

Lemma emp_assert_Ok (c : bool) (e : failure) (u : unit) :
  emp_assert c e = Ok u -> c = true.
Proof. by destruct c. Qed.

(** Splits a hypothesis [(x ← m; k) = Ok b] into [m = Ok a] and [k a = Ok b]. *)
Ltac bind_inv H :=
  let a := fresh "a" in
  let Ha := fresh "Ha" in
  apply bind_Ok_inv in H as (a & Ha & H).

(** Projects the fields out of an updated hardware, and nothing else. *)
Tactic Notation "host_simpl" "in" hyp(H) :=
  cbn [event_lib event_queue max_active_threads max_thread_space threads
       thread_exec_order active_threads unused_threads pending_threads
       cur_thread_id is_executing custom_component
       with_event_queue with_threads with_thread_exec_order
       with_active_threads with_unused_threads with_pending_threads
       with_cur_thread_id with_is_executing with_custom_component
       pop_pending exec_state priority run_state
       SetDead SetPending SetRunning SetPriority Thread_Reset Thread_new] in H.

Ltac host_simpl :=
  cbn [event_lib event_queue max_active_threads max_thread_space threads
       thread_exec_order active_threads unused_threads pending_threads
       cur_thread_id is_executing custom_component
       with_event_queue with_threads with_thread_exec_order
       with_active_threads with_unused_threads with_pending_threads
       with_cur_thread_id with_is_executing with_custom_component
       pop_pending exec_state priority run_state
       SetDead SetPending SetRunning SetPriority Thread_Reset Thread_new].

Section Properties.

Context {exec_state_t custom_comp_t event_lib_t : Type}.

Local Abbreviation Thread := (@Thread exec_state_t).
Local Abbreviation Host := (@Host exec_state_t custom_comp_t event_lib_t).

Implicit Types (hw : Host) (t : Thread) (i : nat).

(** ** Pool access *)

Lemma GetThread_Ok hw i t : GetThread i hw = Ok t ↔ threads hw !! i = Some t.
Proof. unfold GetThread. destruct (threads hw !! i); split; congruence. Qed.

Lemma GetThread_lt hw i : i < length (threads hw) -> ∃ t, GetThread i hw = Ok t.
Proof.
  intros [t Ht]%lookup_lt_is_Some. exists t. by apply GetThread_Ok.
Qed.

Lemma update_thread_Ok hw i t (f : Thread -> Thread) :
  threads hw !! i = Some t ->
  update_thread i f hw = Ok (with_threads (<[i := f t]> (threads hw)) hw).
Proof.
  intros Ht. unfold update_thread. apply GetThread_Ok in Ht. by rewrite Ht.
Qed.

Lemma update_thread_inv hw hw' i (f : Thread -> Thread) :
  update_thread i f hw = Ok hw' ->
  ∃ t, threads hw !! i = Some t ∧
       hw' = with_threads (<[i := f t]> (threads hw)) hw.
Proof.
  unfold update_thread. intros H. bind_inv H.
  apply GetThread_Ok in Ha. exists a. split; congruence.
Qed.

Lemma ActivateThread_Ok hw i t :
  threads hw !! i = Some t ->
  ActivateThread i hw =
    Ok (with_threads (<[i := SetRunning t]> (threads hw))
          (with_thread_exec_order (thread_exec_order hw ++ [i])
             (with_active_threads ({[i]} ∪ active_threads hw) hw))).
Proof.
  intros Ht. unfold ActivateThread.
  assert ((i <? length (threads hw)) = true) as ->.
  { apply Nat.ltb_lt. eapply lookup_lt_Some, Ht. }
  simpl. by erewrite update_thread_Ok.
Qed.

Lemma ActivateThread_inv hw hw' i :
  ActivateThread i hw = Ok hw' ->
  ∃ t, threads hw !! i = Some t ∧
    hw' = with_threads (<[i := SetRunning t]> (threads hw))
            (with_thread_exec_order (thread_exec_order hw ++ [i])
               (with_active_threads ({[i]} ∪ active_threads hw) hw)).
Proof.
  unfold ActivateThread. intros H. bind_inv H.
  apply update_thread_inv in H as (t & Ht & ->). eauto.
Qed.

Lemma KillThread_Ok hw i t :
  threads hw !! i = Some t ->
  KillThread i hw =
    Ok (with_threads (<[i := SetDead t]> (threads hw))
          (with_active_threads (active_threads hw ∖ {[i]}) hw)).
Proof.
  intros Ht. unfold KillThread.
  assert ((i <? length (threads hw)) = true) as ->.
  { apply Nat.ltb_lt. eapply lookup_lt_Some, Ht. }
  simpl. by erewrite update_thread_Ok.
Qed.

Lemma KillThread_inv hw hw' i :
  KillThread i hw = Ok hw' ->
  ∃ t, threads hw !! i = Some t ∧
    hw' = with_threads (<[i := SetDead t]> (threads hw))
            (with_active_threads (active_threads hw ∖ {[i]}) hw).
Proof.
  unfold KillThread. intros H. bind_inv H.
  apply update_thread_inv in H as (t & Ht & ->). eauto.
Qed.

(** ** Frame: scheduling leaves priorities and execution states alone *)

Lemma frame_refl hw : frame hw hw.
Proof. by repeat split. Qed.

Lemma frame_trans hw1 hw2 hw3 : frame hw1 hw2 -> frame hw2 hw3 -> frame hw1 hw3.
Proof.
  unfold frame, same_payload, same_outside_index.
  intros [[? ?] (?&?&?&?&?&?&?&?)] [[? ?] (?&?&?&?&?&?&?&?)].
  repeat split; congruence.
Qed.

Lemma fmap_insert_same {A B : Type} (f : A -> B) (l : list A) i x y :
  l !! i = Some x -> f y = f x -> f <$> <[i := y]> l = f <$> l.
Proof.
  intros Hx Hf. rewrite list_fmap_insert, Hf.
  apply list_insert_id. by rewrite list_lookup_fmap, Hx.
Qed.

(** Replacing the run state of one thread. *)
Lemma frame_set_state hw i t (f : Thread -> Thread) :
  threads hw !! i = Some t ->
  priority (f t) = priority t -> exec_state (f t) = exec_state t ->
  frame hw (with_threads (<[i := f t]> (threads hw)) hw).
Proof.
  intros Ht Hp He. repeat split; simpl; by eapply fmap_insert_same.
Qed.

Lemma frame_pop_pending hw : frame hw (pop_pending hw).
Proof. by repeat split. Qed.

Lemma ActivateThread_frame hw hw' i : ActivateThread i hw = Ok hw' -> frame hw hw'.
Proof.
  intros (t & Ht & ->)%ActivateThread_inv.
  repeat split; simpl; by eapply fmap_insert_same.
Qed.

Lemma KillThread_frame hw hw' i : KillThread i hw = Ok hw' -> frame hw hw'.
Proof.
  intros (t & Ht & ->)%KillThread_inv.
  repeat split; simpl; by eapply fmap_insert_same.
Qed.

Lemma update_thread_SetDead_frame hw hw' i :
  update_thread i SetDead hw = Ok hw' -> frame hw hw'.
Proof.
  intros (t & Ht & ->)%update_thread_inv. by apply frame_set_state.
Qed.

Lemma fill_capacity_frame pend hw hw' :
  fill_capacity pend hw = Ok hw' -> frame hw hw'.
Proof.
  revert hw. induction pend as [| i rest IH]; intros hw H; simpl in H.
  - injection H as <-. apply frame_refl.
  - destruct (size (active_threads hw) <? max_active_threads hw).
    + bind_inv H. bind_inv H. bind_inv H.
      apply ActivateThread_frame in Ha1. apply IH in H.
      eapply frame_trans; [exact Ha1 |].
      eapply frame_trans; [apply frame_pop_pending | exact H].
    + injection H as <-. apply frame_refl.
Qed.

Lemma evict_body_frame hw hw' pid aid heap heap' k :
  evict_body pid aid heap hw = Ok (heap', hw', k) -> frame hw hw'.
Proof.
  unfold evict_body. intros H. bind_inv H. bind_inv H.
  destruct (Qltb _ _).
  - bind_inv H. bind_inv H. injection H as _ <- _.
    apply KillThread_frame in Ha1. apply ActivateThread_frame in Ha2.
    eapply frame_trans; [exact Ha1 |].
    eapply frame_trans; [exact Ha2 | apply frame_pop_pending].
  - bind_inv H. injection H as _ <- _.
    apply update_thread_SetDead_frame in Ha1.
    eapply frame_trans; [apply frame_pop_pending | exact Ha1].
Qed.

Lemma evict_loop_frame pend heap hw killed hw' killed' :
  evict_loop pend heap hw killed = Ok (hw', killed') -> frame hw hw'.
Proof.
  revert heap hw killed.
  induction pend as [| pid rest IH]; intros heap hw killed H; simpl in H.
  - injection H as <- _. apply frame_refl.
  - destruct (pq_top heap) as [[q aid] |].
    + bind_inv H. destruct a as [[heap1 hw1] k].
      apply evict_body_frame in Ha. apply IH in H.
      eapply frame_trans; eauto.
    + injection H as <- _. apply frame_refl.
Qed.

Lemma reject_leftovers_frame pend hw hw' :
  reject_leftovers pend hw = Ok hw' -> frame hw hw'.
Proof.
  revert hw. induction pend as [| i rest IH]; intros hw H; simpl in H.
  - injection H as <-. apply frame_refl.
  - bind_inv H. apply update_thread_SetDead_frame in Ha. apply IH in H.
    eapply frame_trans; [exact Ha |].
    eapply frame_trans; [apply frame_pop_pending | exact H].
Qed.

Lemma ActivatePendingThreads_frame hw hw' killed :
  ActivatePendingThreads hw = Ok (hw', killed) -> frame hw hw'.
Proof.
  unfold ActivatePendingThreads. intros H.
  case_bool_decide; [injection H as <- _; apply frame_refl |].
  bind_inv H. apply fill_capacity_frame in Ha.
  case_bool_decide; [injection H as <- _; done |].
  bind_inv H. bind_inv H. bind_inv H. destruct a2 as [hw2 k2].
  bind_inv H. injection H as <- _.
  apply evict_loop_frame in Ha2. apply reject_leftovers_frame in Ha3.
  eapply frame_trans; [exact Ha |]. eapply frame_trans; eauto.
Qed.

(** ** Phase 1: filling spare capacity *)

Lemma state_of_Some hw i s :
  state_of hw i = Some s ↔ ∃ t, threads hw !! i = Some t ∧ run_state t = s.
Proof.
  unfold state_of. destruct (threads hw !! i) as [t |]; simpl; split.
  - intros [= <-]. eauto.
  - by intros (? & [= <-] & <-).
  - done.
  - by intros (? & ? & _).
Qed.

Lemma fill_capacity_spec pend hw :
  pending_threads hw = pend -> NoDup pend ->
  (∀ i, i ∈ pend -> state_of hw i = Some PENDING) ->
  (∀ i, i ∈ pend -> i ∉ active_threads hw) ->
  let k := min (length pend)
               (max_active_threads hw - size (active_threads hw)) in
  ∃ hw', fill_capacity pend hw = Ok hw' ∧
    pending_threads hw' = drop k pend ∧
    thread_exec_order hw' = thread_exec_order hw ++ take k pend ∧
    active_threads hw' = active_threads hw ∪ list_to_set (take k pend) ∧
    (∀ i, threads hw' !! i =
          if bool_decide (i ∈ take k pend)
          then SetRunning <$> threads hw !! i else threads hw !! i).
Proof.
  revert hw. induction pend as [| j rest IH]; intros hw Hp Hnd Hst Hact k.
  - exists hw. subst k. simpl. rewrite app_nil_r. repeat split; try done.
    set_solver.
  - simpl. destruct (size (active_threads hw) <? max_active_threads hw) eqn:Hroom.
    + apply Nat.ltb_lt in Hroom.
      destruct (proj1 (state_of_Some hw j PENDING)) as (t & Ht & Hrt).
      { apply Hst. left. }
      rewrite (proj2 (GetThread_Ok hw j t) Ht). simpl.
      unfold IsPending. rewrite Hrt. simpl.
      rewrite (ActivateThread_Ok hw j t Ht). simpl.
      apply NoDup_cons in Hnd as [Hj Hnd].
      set (hw1 := pop_pending _).
      assert (size (active_threads hw1) = S (size (active_threads hw))) as Hsz.
      { subst hw1. simpl. rewrite size_union, size_singleton; [done |].
        specialize (Hact j). set_solver. }
      destruct (IH hw1) as (hw' & Hrun & Hpend & Hord & Hset & Hthr); clear IH.
      { subst hw1. simpl. by rewrite Hp. }
      { done. }
      { intros i Hi. subst hw1. unfold state_of. simpl.
        rewrite list_lookup_insert_ne; [| set_solver].
        apply Hst. by right. }
      { intros i Hi. subst hw1. simpl.
        specialize (Hact i). set_solver. }
      rewrite Hsz in Hpend, Hord, Hset, Hthr.
      assert (max_active_threads hw1 = max_active_threads hw) as Hmax by done.
      rewrite Hmax in Hpend, Hord, Hset, Hthr.
      assert (k = S (min (length rest)
                 (max_active_threads hw - S (size (active_threads hw))))) as ->.
      { subst k. simpl length. lia. }
      exists hw'. split; [exact Hrun |]. simpl.
      split; [exact Hpend |].
      split; [rewrite Hord; subst hw1; simpl; by rewrite <- app_assoc |].
      split; [rewrite Hset; subst hw1; simpl; set_solver |].
      intros i. rewrite Hthr. subst hw1. simpl.
      destruct (decide (i = j)) as [-> | Hne].
      * rewrite bool_decide_eq_false_2.
        2:{ intros Hin. apply Hj. eapply subseteq_take, Hin. }
        rewrite bool_decide_eq_true_2 by left.
        rewrite list_lookup_insert_eq by (eapply lookup_lt_Some, Ht).
        by rewrite Ht.
      * rewrite list_lookup_insert_ne by done.
        repeat case_bool_decide; try done; set_solver.
    + apply Nat.ltb_ge in Hroom.
      assert (k = 0) as -> by (subst k; lia).
      exists hw. simpl. rewrite app_nil_r. repeat split; try done. set_solver.
Qed.

Lemma index_consistent_disjoint hw i :
  index_consistent hw -> i ∈ pending_threads hw -> i ∉ active_threads hw.
Proof.
  intros (Ha & Hp & _) Hi Hi'. apply Ha in Hi'. apply Hp in Hi. congruence.
Qed.

Lemma fill_capacity_consistent hw hw1 :
  index_consistent hw ->
  fill_capacity (pending_threads hw) hw = Ok hw1 ->
  index_consistent hw1.
Proof.
  intros Hc Hrun.
  destruct (fill_capacity_spec (pending_threads hw) hw)
    as (hw' & Hrun' & Hpend & _ & Hset & Hthr); try done.
  { apply Hc. } { apply Hc. } { intros i. by apply index_consistent_disjoint. }
  rewrite Hrun in Hrun'. injection Hrun' as <-.
  set (k := _ `min` _) in *.
  destruct Hc as (Ha & Hp & Hnd).
  rewrite <- (take_drop k (pending_threads hw)) in Hnd.
  apply NoDup_app in Hnd as (_ & Hsep & Hnd').
  split; [| split].
  - intros i. rewrite Hset, elem_of_union, elem_of_list_to_set.
    unfold state_of. rewrite Hthr. intros [Hi | Hi].
    + case_bool_decide; [| by apply Ha].
      specialize (Ha i Hi). unfold state_of in Ha.
      destruct (threads hw !! i); [done | discriminate].
    + rewrite bool_decide_eq_true_2 by done.
      assert (state_of hw i = Some PENDING) as Hs.
      { apply Hp. eapply subseteq_take, Hi. }
      unfold state_of in Hs. destruct (threads hw !! i); [done | discriminate].
  - intros i. rewrite Hpend. intros Hi. unfold state_of. rewrite Hthr.
    rewrite bool_decide_eq_false_2.
    + apply Hp. eapply subseteq_drop, Hi.
    + intros Hi'. by apply (Hsep i).
  - by rewrite Hpend.
Qed.

(** ** Phase 2: the greatest pending priority *)

Lemma raise_max_priority_spec pend (m : Q) hw :
  (∀ i, i ∈ pend -> state_of hw i = Some PENDING) ->
  ∃ p, raise_max_priority pend m hw = Ok p ∧
    (m <= p)%Q ∧
    (∀ i q, i ∈ pend -> priority_of hw i = Some q -> (q <= p)%Q) ∧
    (p = m ∨ ∃ i, i ∈ pend ∧ priority_of hw i = Some p).
Proof.
  revert m. induction pend as [| j rest IH]; intros m Hst; simpl.
  - exists m. split; [done |]. split; [apply Qle_refl |].
    split; [| by left]. intros i q Hi. by apply elem_of_nil in Hi.
  - destruct (proj1 (state_of_Some hw j PENDING)) as (t & Ht & Hrt).
    { apply Hst. left. }
    rewrite (proj2 (GetThread_Ok hw j t) Ht). simpl.
    unfold IsPending. rewrite Hrt. simpl. unfold GetPriority.
    destruct (IH (if Qltb m (priority t) then priority t else m))
      as (p & Hrun & Hle & Hall & Hex).
    { intros i Hi. apply Hst. by right. }
    exists p. split; [exact Hrun |].
    assert ((m <= p)%Q ∧ (priority t <= p)%Q) as [Hm Hpt].
    { destruct (Qltb m (priority t)) eqn:Hlt.
      - apply Qltb_lt in Hlt. split; [| done].
        eapply Qle_trans; [apply Qlt_le_weak |]; eauto.
      - apply Qltb_ge in Hlt. split; [done |]. eapply Qle_trans; eauto. }
    split; [done |]. split.
    + intros i q [-> | Hi]%elem_of_cons Hq.
      * unfold priority_of in Hq. rewrite Ht in Hq. by injection Hq as <-.
      * by eapply Hall.
    + destruct Hex as [-> | (i & Hi & Hq)].
      * destruct (Qltb m (priority t)); [| by left].
        right. exists j. split; [left |]. unfold priority_of. by rewrite Ht.
      * right. exists i. split; [by right | done].
Qed.

Lemma find_max_pending_priority_spec hw :
  (∀ i, i ∈ pending_threads hw -> state_of hw i = Some PENDING) ->
  pending_threads hw ≠ [] ->
  ∃ p, find_max_pending_priority hw = Ok p ∧
       is_max_priority hw (pending_threads hw) p.
Proof.
  intros Hst Hne. unfold find_max_pending_priority.
  destruct (pending_threads hw) as [| front rest] eqn:Hp; [done |].
  destruct (proj1 (state_of_Some hw front PENDING)) as (t & Ht & Hrt).
  { apply Hst. left. }
  rewrite (proj2 (GetThread_Ok hw front t) Ht). simpl. unfold GetPriority.
  destruct (raise_max_priority_spec (front :: rest) (priority t) hw Hst)
    as (p & Hrun & _ & Hall & Hex).
  exists p. split; [exact Hrun |]. split; [| exact Hall].
  destruct Hex as [-> | Hex]; [| exact Hex].
  exists front. split; [left |]. unfold priority_of. by rewrite Ht.
Qed.

(** ** Phase 2: the heap of active priorities *)

Lemma collect_active_priorities_spec ids (p : Q) hw (heap0 : priority_queue) :
  (∀ i, i ∈ ids -> i < length (threads hw)) ->
  ∃ heap, collect_active_priorities ids p hw heap0 = Ok heap ∧
    (∀ q i, (q, i) ∈ heap ↔
       (q, i) ∈ heap0 ∨ (i ∈ ids ∧ priority_of hw i = Some q ∧ (q < p)%Q)) ∧
    (pq_sorted heap0 -> pq_sorted heap).
Proof.
  revert heap0. induction ids as [| j rest IH]; intros heap0 Hlt; simpl.
  - exists heap0. split; [done |]. split; [| done].
    intros q i. split; [by left |]. intros [H | [H _]]; [done |].
    by apply elem_of_nil in H.
  - destruct (lookup_lt_is_Some_2 (threads hw) j) as [t Ht].
    { apply Hlt. left. }
    rewrite (proj2 (GetThread_Ok hw j t) Ht). simpl. unfold GetPriority.
    destruct (IH (if Qltb (priority t) p
                  then pq_emplace (priority t, j) heap0 else heap0))
      as (heap & Hrun & Hin & Hsort).
    { intros i Hi. apply Hlt. by right. }
    exists heap. split; [exact Hrun |]. split.
    + intros q i. rewrite Hin, elem_of_cons.
      destruct (Qltb (priority t) p) eqn:Hlt'.
      * apply Qltb_lt in Hlt'. rewrite pq_emplace_elem. split.
        -- intros [[[= -> ->] | H] | (H1 & H2 & H3)]; [| by left | by eauto 6].
           right. split; [by left |]. unfold priority_of. by rewrite Ht.
        -- intros [H | ([-> | H1] & H2 & H3)]; [by left; right | | by eauto 6].
           unfold priority_of in H2. rewrite Ht in H2. injection H2 as <-.
           by left; left.
      * apply Qltb_ge in Hlt'. split.
        -- intros [H | (H1 & H2 & H3)]; [by left | by eauto 6].
        -- intros [H | ([-> | H1] & H2 & H3)]; [by left | | by eauto 6].
           unfold priority_of in H2. rewrite Ht in H2. injection H2 as <-.
           exfalso. eapply Qlt_not_le; eauto.
    + intros Hs. apply Hsort. destruct (Qltb (priority t) p); [| done].
      by apply pq_emplace_sorted.
Qed.

Lemma collect_heap_holds hw (p : Q) :
  (∀ i, i ∈ active_threads hw -> i < length (threads hw)) ->
  ∃ heap,
    collect_active_priorities (elements (active_threads hw)) p hw [] = Ok heap ∧
    heap_holds hw p heap ∧ pq_sorted heap.
Proof.
  intros Hlt.
  destruct (collect_active_priorities_spec (elements (active_threads hw)) p hw [])
    as (heap & Hrun & Hin & Hsort).
  { intros i Hi. apply Hlt. by apply elem_of_elements. }
  exists heap. split; [exact Hrun |]. split; [| apply Hsort; constructor].
  intros q i. rewrite Hin, elem_of_elements. split.
  - intros [H | H]; [by apply elem_of_nil in H | done].
  - by right.
Qed.

(** The heap that lines 226-232 build does not depend on the order in which
    the active set is iterated. *)
Theorem collect_active_priorities_order ids ids' (p : Q) hw
    (heap0 : priority_queue) :
  ids ≡ₚ ids' -> NoDup ids ->
  collect_active_priorities ids p hw heap0 =
  collect_active_priorities ids' p hw heap0.
Proof.
  intros Hperm. revert heap0.
  induction Hperm as [| a l l' _ IH | a b l | l1 l2 l3 H12 IH12 _ IH23];
    intros heap0 Hnd.
  - done.
  - apply NoDup_cons in Hnd as [_ Hnd]. cbn [collect_active_priorities].
    destruct (GetThread a hw); [| done]. rewrite !bind_Ok. by apply IH.
  - apply NoDup_cons in Hnd as [Hb _].
    assert (b ≠ a) as Hne by set_solver.
    cbn [collect_active_priorities].
    assert (∀ i e, GetThread i hw = Fail e -> e = IndexOutOfRange) as Hfail.
    { intros i e. unfold GetThread. destruct (threads hw !! i); congruence. }
    destruct (GetThread a hw) as [ta | ea] eqn:Ha,
             (GetThread b hw) as [tb | eb] eqn:Hb'; simpl; try done.
    + f_equal.
      destruct (Qltb (GetPriority ta) p), (Qltb (GetPriority tb) p); try done.
      by apply pq_emplace_comm.
    + by rewrite (Hfail _ _ Ha), (Hfail _ _ Hb').
  - rewrite IH12 by done. apply IH23. by rewrite <- H12.
Qed.

(** ** Phase 2: the eviction loop *)

Lemma evict_body_spec pid aid (heap : priority_queue) hw rest :
  pending_threads hw = pid :: rest ->
  pid < length (threads hw) -> aid < length (threads hw) ->
  ∃ heap' hw' k, evict_body pid aid heap hw = Ok (heap', hw', k) ∧
    pending_threads hw' = rest ∧
    length (threads hw') = length (threads hw) ∧
    (∀ i, i ≠ pid -> i ≠ aid -> threads hw' !! i = threads hw !! i) ∧
    (∀ i, i ∈ active_threads hw -> i ≠ aid -> i ∈ active_threads hw') ∧
    ((heap' = pq_pop heap ∧ k = [aid]) ∨ (heap' = heap ∧ k = [])).
Proof.
  intros Hp Hpid Haid. unfold evict_body.
  destruct (lookup_lt_is_Some_2 _ _ Hpid) as [tp Htp].
  destruct (lookup_lt_is_Some_2 _ _ Haid) as [ta Hta].
  rewrite (proj2 (GetThread_Ok hw pid tp) Htp). simpl.
  rewrite (proj2 (GetThread_Ok hw aid ta) Hta). simpl.
  destruct (Qltb _ _).
  - rewrite (KillThread_Ok hw aid ta Hta). simpl.
    set (hwk := with_threads _ _).
    destruct (lookup_lt_is_Some_2 (threads hwk) pid) as [tp' Htp'].
    { subst hwk. simpl. by rewrite length_insert. }
    rewrite (ActivateThread_Ok hwk pid tp' Htp'). simpl.
    eexists _, _, _. split; [reflexivity |]. simpl.
    split; [by rewrite Hp |].
    split; [by rewrite !length_insert |].
    split; [| split; [| by left]].
    + intros i Hi1 Hi2. by rewrite !list_lookup_insert_ne.
    + intros i Hi Hne. set_solver.
  - assert (threads (pop_pending hw) !! pid = Some tp) as Htp' by done.
    rewrite (update_thread_Ok _ pid tp SetDead Htp'). simpl.
    eexists _, _, _. split; [reflexivity |]. simpl.
    split; [by rewrite Hp |].
    split; [by rewrite length_insert |].
    split; [| split; [done | by right]].
    intros i Hi1 Hi2. by rewrite list_lookup_insert_ne.
Qed.

Lemma evict_loop_cons pid rest (e : heap_entry) (heap : priority_queue) hw killed :
  evict_loop (pid :: rest) (e :: heap) hw killed =
    evict_body pid e.2 (e :: heap) hw ≫= λ '(heap', hw', k),
      evict_loop rest heap' hw' (killed ++ k).
Proof. by destruct e. Qed.

Lemma evict_loop_spec pend (heap : priority_queue) hw killed :
  pending_threads hw = pend ->
  (∀ i, i ∈ pend -> i < length (threads hw)) ->
  (∀ e, e ∈ heap -> e.2 < length (threads hw)) ->
  ∃ hw' killed', evict_loop pend heap hw killed = Ok (hw', killed ++ killed') ∧
    (∀ i, i ∈ killed' -> i ∈ heap.*2) ∧
    pending_threads hw' `suffix_of` pend ∧
    length (threads hw') = length (threads hw) ∧
    (∀ i, i ∉ heap.*2 -> i ∉ pend -> threads hw' !! i = threads hw !! i) ∧
    (∀ i, i ∈ active_threads hw -> i ∉ heap.*2 -> i ∈ active_threads hw').
Proof.
  revert heap hw killed.
  induction pend as [| pid rest IH]; intros heap hw killed Hp Hpend Hheap.
  - exists hw, []. simpl. rewrite app_nil_r, Hp. repeat split; try done.
    intros i Hi. by apply elem_of_nil in Hi.
  - destruct heap as [| [q aid] heap2].
    + exists hw, []. simpl. rewrite app_nil_r, Hp. by repeat split.
    + destruct (evict_body_spec pid aid ((q, aid) :: heap2) hw rest)
        as (heap' & hw1 & k & Hrun & Hp1 & Hlen1 & Hthr1 & Hact1 & Hcase);
        [done | apply Hpend; left | apply (Hheap (q, aid)); left |].
      rewrite evict_loop_cons. simpl snd. rewrite Hrun, bind_Ok.
      assert (heap'.*2 ⊆ aid :: heap2.*2 ∧ k ⊆ [aid]) as [Hsub Hk].
      { destruct Hcase as [[-> ->] | [-> ->]]; simpl; set_solver. }
      destruct (IH heap' hw1 (killed ++ k))
        as (hw' & killed' & Hrun' & Hkill & Hsuf & Hlen & Hthr & Hact).
      { done. }
      { intros i Hi. rewrite Hlen1. apply Hpend. by right. }
      { intros e He. rewrite Hlen1.
        destruct Hcase as [[-> _] | [-> _]]; apply Hheap; [by right | done]. }
      exists hw', (k ++ killed'). rewrite app_assoc. split; [exact Hrun' |].
      split; [| split; [| split; [| split]]].
      * intros i [Hi | Hi]%elem_of_app; [set_solver |].
        apply Hsub. by apply Hkill.
      * by apply suffix_cons_r.
      * congruence.
      * intros i Hi1 Hi2. rewrite Hthr; [| set_solver | set_solver].
        apply Hthr1; set_solver.
      * intros i Hi1 Hi2. apply Hact; [| set_solver].
        apply Hact1; [done | set_solver].
Qed.

(** ** Phase 3: rejecting the leftovers *)

Lemma reject_leftovers_spec pend hw :
  pending_threads hw = pend ->
  (∀ i, i ∈ pend -> i < length (threads hw)) ->
  ∃ hw', reject_leftovers pend hw = Ok hw' ∧
    pending_threads hw' = [] ∧
    active_threads hw' = active_threads hw ∧
    thread_exec_order hw' = thread_exec_order hw ∧
    length (threads hw') = length (threads hw) ∧
    (∀ i, i ∉ pend -> threads hw' !! i = threads hw !! i) ∧
    (∀ i, i ∈ pend -> state_of hw' i = Some DEAD).
Proof.
  revert hw. induction pend as [| j rest IH]; intros hw Hp Hlt; simpl.
  - exists hw. repeat split; try done. intros i Hi. by apply elem_of_nil in Hi.
  - destruct (lookup_lt_is_Some_2 (threads hw) j) as [t Ht]; [apply Hlt; left |].
    rewrite (update_thread_Ok hw j t SetDead Ht). simpl.
    set (hw1 := pop_pending _).
    destruct (IH hw1) as (hw' & Hrun & Hp' & Hact & Hord & Hlen & Hthr & Hdead).
    { subst hw1. simpl. by rewrite Hp. }
    { intros i Hi. subst hw1. simpl. rewrite length_insert. apply Hlt. by right. }
    exists hw'. split; [exact Hrun |]. split; [done |].
    split; [by rewrite Hact |]. split; [by rewrite Hord |].
    split; [rewrite Hlen; subst hw1; simpl; by rewrite length_insert |].
    split.
    + intros i Hi. rewrite Hthr by set_solver. subst hw1. simpl.
      rewrite list_lookup_insert_ne; [done | set_solver].
    + intros i [-> | Hi]%elem_of_cons; [| by apply Hdead].
      destruct (decide (j ∈ rest)) as [Hin | Hnin]; [by apply Hdead |].
      unfold state_of. rewrite Hthr by done. subst hw1. simpl.
      rewrite list_lookup_insert_eq by (eapply lookup_lt_Some, Ht). done.
Qed.

(** ** The admission round *)

Lemma state_of_lt hw i s : state_of hw i = Some s -> i < length (threads hw).
Proof.
  intros (t & Ht & _)%state_of_Some. eapply lookup_lt_Some, Ht.
Qed.

Lemma priority_of_frame hw hw' i :
  same_payload hw hw' -> priority_of hw' i = priority_of hw i.
Proof.
  intros [Hp _]. unfold priority_of. by rewrite <- !list_lookup_fmap, Hp.
Qed.

Lemma state_of_lookup hw hw' i :
  threads hw' !! i = threads hw !! i -> state_of hw' i = state_of hw i.
Proof. unfold state_of. by intros ->. Qed.

Lemma ActivatePendingThreads_phase2 hw hw1 (p : Q) (heap : priority_queue) :
  fill_capacity (pending_threads hw) hw = Ok hw1 ->
  pending_threads hw1 ≠ [] ->
  find_max_pending_priority hw1 = Ok p ->
  collect_active_priorities (elements (active_threads hw1)) p hw1 [] = Ok heap ->
  ActivatePendingThreads hw = evict_and_reject heap hw1.
Proof.
  intros Hfill Hne Hmax Hheap. unfold ActivatePendingThreads.
  assert (pending_threads hw ≠ []) as Hne0.
  { intros Hnil. rewrite Hnil in Hfill. simpl in Hfill.
    injection Hfill as <-. done. }
  rewrite bool_decide_eq_false_2 by done. rewrite Hfill, bind_Ok.
  rewrite bool_decide_eq_false_2 by done. by rewrite Hmax, bind_Ok, Hheap, bind_Ok.
Qed.

Lemma evict_and_reject_spec (heap : priority_queue) hw1 :
  index_consistent hw1 ->
  (∀ e, e ∈ heap -> e.2 ∈ active_threads hw1) ->
  ∃ hw' killed, evict_and_reject heap hw1 = Ok (hw', killed) ∧
    pending_threads hw' = [] ∧
    (∀ i, i ∈ killed -> i ∈ heap.*2) ∧
    (∀ i, i ∈ active_threads hw1 -> i ∉ heap.*2 ->
          i ∈ active_threads hw' ∧ state_of hw' i = Some RUNNING).
Proof.
  intros Hc Hheap. pose proof Hc as (Hact & Hpend & Hnd).
  unfold evict_and_reject.
  destruct (evict_loop_spec (pending_threads hw1) heap hw1 [])
    as (hw2 & killed & Hrun & Hkill & Hsuf & Hlen & Hthr & Hin); [done | | |].
  { intros i Hi. eapply state_of_lt. by apply Hpend. }
  { intros e He. eapply state_of_lt. by apply Hact, Hheap. }
  rewrite Hrun, bind_Ok. simpl.
  destruct (reject_leftovers_spec (pending_threads hw2) hw2)
    as (hw3 & Hrun3 & Hp3 & Hact3 & _ & _ & Hthr3 & _); [done | |].
  { intros i Hi. rewrite Hlen. eapply state_of_lt. apply Hpend.
    eapply elem_of_suffix; eauto. }
  rewrite Hrun3, bind_Ok. exists hw3, killed. split; [done |].
  split; [done |]. split; [done |].
  intros i Hi Hnot.
  assert (i ∉ pending_threads hw1) as Hnp.
  { intros Hp. by eapply index_consistent_disjoint. }
  split.
  - rewrite Hact3. by apply Hin.
  - rewrite <- (Hact i Hi).
    transitivity (state_of hw2 i); apply state_of_lookup.
    + apply Hthr3. intros Hp. apply Hnp. eapply elem_of_suffix; eauto.
    + by apply Hthr.
Qed.

Lemma heap_holds_ids hw (p : Q) (heap : priority_queue) i :
  heap_holds hw p heap -> i ∈ heap.*2 ->
  i ∈ active_threads hw ∧ ∃ q, priority_of hw i = Some q ∧ (q < p)%Q.
Proof.
  intros Hh ([q j] & -> & He)%list_elem_of_fmap. simpl.
  apply Hh in He as (? & ? & ?). eauto.
Qed.

(** C1.  When Phase 1 leaves pending threads, the round computes the greatest
    priority [p] among them, builds a min-heap holding exactly the active
    threads of priority strictly below [p], kills only threads of that heap,
    and so an active thread of priority [p] or more is never killed: it is
    still active and RUNNING when the round ends. *)
Theorem phase2_bound_and_immunity hw hw1 :
  index_consistent hw ->
  fill_capacity (pending_threads hw) hw = Ok hw1 ->
  pending_threads hw1 ≠ [] ->
  ∃ (p : Q) (heap : priority_queue) hw' killed,
    find_max_pending_priority hw1 = Ok p ∧
    is_max_priority hw1 (pending_threads hw1) p ∧
    collect_active_priorities (elements (active_threads hw1)) p hw1 [] = Ok heap ∧
    heap_holds hw1 p heap ∧ pq_sorted heap ∧
    ActivatePendingThreads hw = Ok (hw', killed) ∧
    (∀ i, i ∈ killed -> i ∈ heap.*2) ∧
    (∀ i q, i ∈ active_threads hw1 -> priority_of hw1 i = Some q -> (p <= q)%Q ->
            (i ∉ killed) ∧ i ∈ active_threads hw' ∧ state_of hw' i = Some RUNNING).
Proof.
  intros Hc Hfill Hne.
  pose proof (fill_capacity_consistent hw hw1 Hc Hfill) as Hc1.
  pose proof Hc1 as (Hact & Hpend & _).
  destruct (find_max_pending_priority_spec hw1 Hpend Hne) as (p & Hmax & Hp).
  destruct (collect_heap_holds hw1 p) as (heap & Hcol & Hholds & Hsorted).
  { intros i Hi. eapply state_of_lt. by apply Hact. }
  destruct (evict_and_reject_spec heap hw1 Hc1)
    as (hw' & killed & Hrun & _ & Hkill & Hkeep).
  { intros [q i] He. by apply Hholds in He as (? & _). }
  exists p, heap, hw', killed.
  rewrite (ActivatePendingThreads_phase2 hw hw1 p heap) by done.
  repeat (split; [done |]).
  intros i q Hi Hq Hle.
  assert (i ∉ heap.*2) as Hnot.
  { intros (_ & q' & Hq' & Hlt)%(heap_holds_ids hw1 p); [| done].
    rewrite Hq in Hq'. injection Hq' as <-. by eapply Qlt_not_le. }
  split; [| by apply Hkeep]. intros Hk. by apply Hnot, Hkill.
Qed.

(** C5, as amended.  If no pending thread has a priority above that of an
    active thread when the round starts, the round ends normally and kills
    none of the threads that were active when it started: each is still
    active and RUNNING afterwards.  (A thread that Phase 1 of the same round
    admits can still be evicted in Phase 2.) *)
Theorem admission_monotone hw :
  index_consistent hw ->
  no_pending_above_active hw ->
  ∃ hw' killed, ActivatePendingThreads hw = Ok (hw', killed) ∧
    ∀ j, j ∈ active_threads hw ->
      (j ∉ killed) ∧ j ∈ active_threads hw' ∧ state_of hw' j = Some RUNNING.
Proof.
  intros Hc Hle. pose proof Hc as (Hact & Hpend & Hnd).
  destruct (decide (pending_threads hw = [])) as [Hnil | Hne].
  { exists hw, []. unfold ActivatePendingThreads.
    rewrite bool_decide_eq_true_2 by done. split; [done |].
    intros j Hj. split; [apply not_elem_of_nil |]. split; [done | by apply Hact]. }
  destruct (fill_capacity_spec (pending_threads hw) hw)
    as (hw1 & Hfill & Hp1 & _ & Hset & _); [done | done | done | |].
  { intros i. by apply index_consistent_disjoint. }
  pose proof (fill_capacity_consistent hw hw1 Hc Hfill) as Hc1.
  assert (∀ j, j ∈ active_threads hw -> j ∈ active_threads hw1) as Hsub.
  { intros j Hj. rewrite Hset. set_solver. }
  destruct (decide (pending_threads hw1 = [])) as [Hnil1 | Hne1].
  { exists hw1, []. unfold ActivatePendingThreads.
    rewrite bool_decide_eq_false_2 by done. rewrite Hfill, bind_Ok.
    rewrite bool_decide_eq_true_2 by done. split; [done |].
    intros j Hj. split; [apply not_elem_of_nil |].
    split; [by apply Hsub | by apply Hc1, Hsub]. }
  pose proof Hc1 as (Hact1 & Hpend1 & _).
  destruct (find_max_pending_priority_spec hw1 Hpend1 Hne1)
    as (p & Hmax & [(i & Hi & Hpi) _]).
  destruct (collect_heap_holds hw1 p) as (heap & Hcol & Hholds & _).
  { intros j Hj. eapply state_of_lt. by apply Hact1. }
  destruct (evict_and_reject_spec heap hw1 Hc1)
    as (hw' & killed & Hrun & _ & Hkill & Hkeep).
  { intros [q j] He. by apply Hholds in He as (? & _). }
  exists hw', killed.
  rewrite (ActivatePendingThreads_phase2 hw hw1 p heap) by done.
  split; [done |]. intros j Hj.
  pose proof (fill_capacity_frame _ _ _ Hfill) as [Hpay _].
  assert (j ∉ heap.*2) as Hnot.
  { intros (_ & q & Hq & Hlt)%(heap_holds_ids hw1 p); [| done].
    rewrite (priority_of_frame hw hw1) in Hpi, Hq by done.
    eapply Qlt_not_le; [exact Hlt |].
    apply (Hle i j); try done. rewrite Hp1 in Hi. eapply subseteq_drop, Hi. }
  split; [| apply Hkeep; [by apply Hsub | done]]. intros Hk. by apply Hnot, Hkill.
Qed.

(** C3.  Phase 1 pops and activates pending threads from the front of the
    queue, in arrival order, as long as the queue is not empty and the active
    set is below [max_active_threads]: it activates the first [k] of them,
    [k] being the smaller of the queue length and the spare capacity.  If the
    active and the pending threads together fit under [max_active_threads],
    the whole round activates every pending thread, in arrival order, and
    kills nothing. *)
Theorem fill_capacity_fifo hw :
  index_consistent hw ->
  let pend := pending_threads hw in
  let k := min (length pend) (max_active_threads hw - size (active_threads hw)) in
  (∃ hw1, fill_capacity pend hw = Ok hw1 ∧
     pending_threads hw1 = drop k pend ∧
     thread_exec_order hw1 = thread_exec_order hw ++ take k pend ∧
     active_threads hw1 = active_threads hw ∪ list_to_set (take k pend) ∧
     (∀ i, i ∈ take k pend -> state_of hw1 i = Some RUNNING)) ∧
  (size (active_threads hw) + length pend ≤ max_active_threads hw ->
   ∃ hw', ActivatePendingThreads hw = Ok (hw', []) ∧
     pending_threads hw' = [] ∧
     thread_exec_order hw' = thread_exec_order hw ++ pend ∧
     (∀ i, i ∈ pend -> i ∈ active_threads hw' ∧ state_of hw' i = Some RUNNING) ∧
     (∀ i, i ∈ active_threads hw ->
           i ∈ active_threads hw' ∧ state_of hw' i = Some RUNNING)).
Proof.
  intros Hc pend k. pose proof Hc as (Hact & Hpend & Hnd).
  destruct (fill_capacity_spec pend hw)
    as (hw1 & Hfill & Hp1 & Hord & Hset & Hthr); [done | done | done | |].
  { intros i. by apply index_consistent_disjoint. }
  fold k in Hp1, Hord, Hset, Hthr.
  pose proof (fill_capacity_consistent hw hw1 Hc Hfill) as Hc1.
  split.
  - exists hw1. repeat (split; [done |]).
    intros i Hi. apply Hc1. rewrite Hset. set_solver.
  - intros Hfit. assert (k = length pend) as Hk by (subst k; lia).
    rewrite Hk, drop_all in Hp1. rewrite Hk, firstn_all in Hord, Hset.
    assert (∀ i, i ∈ active_threads hw1 -> state_of hw1 i = Some RUNNING)
      as Hact1 by apply Hc1.
    destruct (decide (pend = [])) as [Hnil | Hne].
    + exists hw. unfold ActivatePendingThreads.
      rewrite bool_decide_eq_true_2 by done. subst pend.
      rewrite Hnil, app_nil_r. repeat (split; [done |]). split.
      * intros i Hi. by apply elem_of_nil in Hi.
      * intros i Hi. split; [done | by apply Hact].
    + exists hw1. unfold ActivatePendingThreads.
      rewrite bool_decide_eq_false_2 by done. fold pend. rewrite Hfill, bind_Ok.
      rewrite bool_decide_eq_true_2 by done. repeat (split; [done |]). split.
      * intros i Hi. assert (i ∈ active_threads hw1) by (rewrite Hset; set_solver).
        split; [done | by apply Hact1].
      * intros i Hi. assert (i ∈ active_threads hw1) by (rewrite Hset; set_solver).
        split; [done | by apply Hact1].
Qed.

(** C2.  One turn of the eviction loop, for the pending thread at the front
    of the queue and the entry on top of the heap.  The top carries the least
    priority of the heap.  The pending thread evicts it exactly when its own
    priority is strictly greater: then the active thread is killed, the
    pending one is activated, and both are popped.  Otherwise the pending
    thread is popped and marked DEAD, and the heap and the active set are as
    before.  In particular a pending thread of equal priority does not
    evict. *)
Theorem evict_body_rule hw pid rest (q : Q) aid (heap : priority_queue) tp ta :
  pending_threads hw = pid :: rest ->
  threads hw !! pid = Some tp -> run_state tp = PENDING ->
  threads hw !! aid = Some ta -> run_state ta = RUNNING ->
  pq_sorted ((q, aid) :: heap) ->
  let evicts hw' :=
    evict_body pid aid ((q, aid) :: heap) hw = Ok (pq_pop ((q, aid) :: heap), hw', [aid]) ∧
    pq_pop ((q, aid) :: heap) = heap ∧
    pending_threads hw' = rest ∧
    active_threads hw' = {[pid]} ∪ (active_threads hw ∖ {[aid]}) ∧
    threads hw' !! aid = Some (SetDead ta) ∧
    threads hw' !! pid = Some (SetRunning tp) ∧
    thread_exec_order hw' = thread_exec_order hw ++ [pid] in
  let loses hw' :=
    evict_body pid aid ((q, aid) :: heap) hw = Ok ((q, aid) :: heap, hw', []) ∧
    pending_threads hw' = rest ∧
    active_threads hw' = active_threads hw ∧
    threads hw' !! pid = Some (SetDead tp) ∧
    threads hw' !! aid = Some ta ∧
    thread_exec_order hw' = thread_exec_order hw in
  (∀ e, e ∈ (q, aid) :: heap -> (q <= e.1)%Q) ∧
  ((priority ta < priority tp)%Q -> ∃ hw', evicts hw') ∧
  (¬ (priority ta < priority tp)%Q -> ∃ hw', loses hw') ∧
  ((priority tp == priority ta)%Q -> ∃ hw', loses hw').
Proof.
  intros Hp Htp Hsp Hta Hsa Hsorted evicts loses.
  assert (pid ≠ aid) as Hne by (intros ->; congruence).
  assert (¬ (priority ta < priority tp)%Q -> ∃ hw', loses hw') as Hlose.
  { intros Hge. apply Qnot_lt_le, Qltb_ge in Hge.
    eexists. unfold loses, evict_body.
    rewrite (proj2 (GetThread_Ok hw pid tp) Htp), bind_Ok.
    rewrite (proj2 (GetThread_Ok hw aid ta) Hta), bind_Ok.
    unfold GetPriority. rewrite Hge.
    assert (threads (pop_pending hw) !! pid = Some tp) as Htp' by done.
    rewrite (update_thread_Ok _ pid tp SetDead Htp'), bind_Ok.
    split; [reflexivity |]. simpl. rewrite Hp. split; [done |]. split; [done |].
    split; [apply list_lookup_insert_eq; eapply lookup_lt_Some, Htp |].
    split; [| done]. by rewrite list_lookup_insert_ne. }
  split; [| split; [| split]].
  - intros e He. by apply (pq_sorted_top_least (q, aid) e heap).
  - intros Hlt. apply Qltb_lt in Hlt.
    eexists. unfold evicts, evict_body.
    rewrite (proj2 (GetThread_Ok hw pid tp) Htp), bind_Ok.
    rewrite (proj2 (GetThread_Ok hw aid ta) Hta), bind_Ok.
    unfold GetPriority. rewrite Hlt.
    rewrite (KillThread_Ok hw aid ta Hta), bind_Ok.
    erewrite (ActivateThread_Ok _ pid tp), bind_Ok.
    2:{ simpl. by rewrite list_lookup_insert_ne. }
    split; [reflexivity |]. simpl. rewrite Hp. repeat (split; [done |]).
    split; [| split; [| done]].
    + rewrite list_lookup_insert_ne by done.
      apply list_lookup_insert_eq. eapply lookup_lt_Some, Hta.
    + apply list_lookup_insert_eq. rewrite length_insert.
      eapply lookup_lt_Some, Htp.
  - exact Hlose.
  - intros Heq. apply Hlose. rewrite Heq. apply Qlt_irrefl.
Qed.

(** ** Admission keeps the index *)

Lemma index_invariant_consistent hw : index_invariant hw -> index_consistent hw.
Proof.
  intros [Hrun Hpend _ _ _ _ Hain Hpin _ Hnd _ _ _].
  split; [| split; [| done]].
  - intros i Hi. destruct (lookup_lt_is_Some_2 _ _ (Hain i Hi)) as [t Ht].
    apply state_of_Some. exists t. split; [done |]. by apply (Hrun i t).
  - intros i Hi. destruct (lookup_lt_is_Some_2 _ _ (Hpin i Hi)) as [t Ht].
    apply state_of_Some. exists t. split; [done |]. by apply (Hpend i t).
Qed.

Lemma frame_length hw hw' : frame hw hw' -> length (threads hw') = length (threads hw).
Proof.
  intros [[Hp _] _]. by rewrite <- (length_fmap priority), Hp, length_fmap.
Qed.

Lemma fill_capacity_index hw hw1 :
  index_invariant hw ->
  fill_capacity (pending_threads hw) hw = Ok hw1 ->
  index_invariant hw1.
Proof.
  intros Hidx Hrun.
  pose proof (index_invariant_consistent hw Hidx) as Hc.
  destruct (fill_capacity_spec (pending_threads hw) hw)
    as (hw' & Hrun' & Hpend1 & Hord1 & Hset1 & Hthr1); try done.
  { apply Hc. } { apply Hc. } { intros i. by apply index_consistent_disjoint. }
  rewrite Hrun in Hrun'. injection Hrun' as <-.
  pose proof (fill_capacity_frame _ _ _ Hrun) as Hf.
  pose proof (frame_length _ _ Hf) as Hlen.
  destruct Hf as [_ (_ & _ & Hmax & Hspace & Hun & _)].
  set (k := _ `min` _) in *.
  destruct Hidx as [Hrn Hpn Hap Hau Hpu Hsz Hain Hpin Huin Hnd Hund Hpool Hord].
  pose proof Hnd as Hnd'.
  rewrite <- (take_drop k (pending_threads hw)) in Hnd'.
  apply NoDup_app in Hnd' as (HndT & Hsep & HndD).
  assert (∀ i, i ∈ pending_threads hw ↔
               i ∈ take k (pending_threads hw) ∨ i ∈ drop k (pending_threads hw))
    as Hsplit.
  { intros i. by rewrite <- elem_of_app, take_drop. }
  constructor; rewrite ?Hpend1, ?Hord1, ?Hset1, ?Hmax, ?Hspace, ?Hun, ?Hlen;
    try done.
  - intros i t'. rewrite Hthr1, elem_of_union, elem_of_list_to_set.
    destruct (decide (i ∈ take k (pending_threads hw))) as [Hi | Hi].
    + rewrite bool_decide_eq_true_2 by done.
      intros (t & _ & ->)%fmap_Some. simpl. split; [by right | done].
    + rewrite bool_decide_eq_false_2 by done.
      intros Ht. rewrite (Hrn i t' Ht). tauto.
  - intros i t'. rewrite Hthr1.
    destruct (decide (i ∈ take k (pending_threads hw))) as [Hi | Hi].
    + rewrite bool_decide_eq_true_2 by done.
      intros (t & _ & ->)%fmap_Some. simpl. split; [done |].
      intros Hd. by destruct (Hsep i Hi).
    + rewrite bool_decide_eq_false_2 by done.
      intros Ht. rewrite (Hpn i t' Ht), Hsplit. tauto.
  - intros i [Hi | Hi%elem_of_list_to_set]%elem_of_union Hd.
    + apply (Hap i Hi), Hsplit. by right.
    + by apply (Hsep i Hi).
  - intros i [Hi | Hi%elem_of_list_to_set]%elem_of_union.
    + by apply Hau.
    + apply Hpu, Hsplit. by left.
  - intros i Hi. apply Hpu, Hsplit. by right.
  - rewrite size_union.
    + rewrite size_list_to_set by done. rewrite length_take. lia.
    + intros i Hi Hi'%elem_of_list_to_set. apply (Hap i Hi), Hsplit. by left.
  - intros i [Hi | Hi%elem_of_list_to_set]%elem_of_union.
    + by apply Hain.
    + apply Hpin, Hsplit. by left.
  - intros i Hi. apply Hpin, Hsplit. by right.
  - intros i [Hi | Hi%elem_of_list_to_set]%elem_of_union; apply elem_of_app.
    + left. by apply Hord.
    + by right.
Qed.

Lemma evict_body_index pid rest (q : Q) aid (heap : priority_queue) hw :
  index_invariant hw -> heap_of_active ((q, aid) :: heap) hw ->
  pending_threads hw = pid :: rest ->
  ∃ heap' hw' k,
    evict_body pid aid ((q, aid) :: heap) hw = Ok (heap', hw', k) ∧
    index_invariant hw' ∧ heap_of_active heap' hw' ∧
    pending_threads hw' = rest.
Proof.
  intros Hidx [Hnd Hheap] Hp.
  destruct Hidx as [Hrn Hpn Hap Hau Hpu Hsz Hain Hpin Huin Hndp Hund Hpool Hord].
  rewrite Hp in *.
  assert (aid ∈ active_threads hw) as Haid by (apply Hheap; left).
  assert (pid ∉ active_threads hw) as Hpid.
  { intros Hi. apply (Hap pid Hi). left. }
  assert (pid ≠ aid) as Hne by (intros ->; done).
  destruct (lookup_lt_is_Some_2 (threads hw) pid) as [tp Htp];
    [apply Hpin; left |].
  destruct (lookup_lt_is_Some_2 (threads hw) aid) as [ta Hta];
    [by apply Hain |].
  apply NoDup_cons in Hndp as [Hpr Hndr].
  cbn [fmap list_fmap snd] in Hnd. apply NoDup_cons in Hnd as [Hah Hndh].
  unfold evict_body.
  rewrite (proj2 (GetThread_Ok hw pid tp) Htp), bind_Ok.
  rewrite (proj2 (GetThread_Ok hw aid ta) Hta), bind_Ok.
  destruct (Qltb _ _).
  - rewrite (KillThread_Ok hw aid ta Hta), bind_Ok.
    erewrite (ActivateThread_Ok _ pid tp), bind_Ok.
    2:{ host_simpl. by rewrite list_lookup_insert_ne. }
    eexists _, _, _. split; [reflexivity |].
    split; [| split; [split |]]; [constructor | | |]; host_simpl;
      rewrite ?length_insert, ?Hp; cbn [tail pq_pop]; try done.
    + intros i t'. destruct (decide (i = pid)) as [-> | Hn1].
      { rewrite list_lookup_insert_eq
          by (rewrite length_insert; eapply lookup_lt_Some, Htp).
        intros [= <-]. simpl. split; [set_solver | done]. }
      rewrite list_lookup_insert_ne by done.
      destruct (decide (i = aid)) as [-> | Hn2].
      { rewrite list_lookup_insert_eq by (eapply lookup_lt_Some, Hta).
        intros [= <-]. simpl. split; [done | set_solver]. }
      rewrite list_lookup_insert_ne by done.
      intros Ht. rewrite (Hrn i t' Ht). set_solver.
    + intros i t'. destruct (decide (i = pid)) as [-> | Hn1].
      { rewrite list_lookup_insert_eq
          by (rewrite length_insert; eapply lookup_lt_Some, Htp).
        intros [= <-]. simpl. split; [done | by intros ?]. }
      rewrite list_lookup_insert_ne by done.
      destruct (decide (i = aid)) as [-> | Hn2].
      { rewrite list_lookup_insert_eq by (eapply lookup_lt_Some, Hta).
        intros [= <-]. simpl. split; [done |].
        intros Hi. destruct (Hap aid Haid). by right. }
      rewrite list_lookup_insert_ne by done.
      intros Ht. rewrite (Hpn i t' Ht), elem_of_cons. naive_solver.
    + intros i [->%elem_of_singleton | [Hi _]%elem_of_difference]%elem_of_union;
        [done |].
      intros Hr. apply (Hap i Hi). by right.
    + intros i [->%elem_of_singleton | [Hi _]%elem_of_difference]%elem_of_union.
      * apply Hpu. left.
      * by apply Hau.
    + intros i Hi. apply Hpu. by right.
    + rewrite size_union by set_solver.
      rewrite size_singleton, size_difference by set_solver.
      rewrite size_singleton.
      assert (size (active_threads hw) ≠ 0); [| lia].
      intros Hz%size_empty_iff. set_solver.
    + intros i [->%elem_of_singleton | [Hi _]%elem_of_difference]%elem_of_union.
      * apply Hpin. left.
      * by apply Hain.
    + intros i Hi. apply Hpin. by right.
    + intros i [->%elem_of_singleton | [Hi _]%elem_of_difference]%elem_of_union;
        apply elem_of_app.
      * right. left.
      * left. by apply Hord.
    + intros i Hi. apply elem_of_union. right. apply elem_of_difference.
      split; [apply Hheap; by right |].
      intros ->%elem_of_singleton. done.
  - assert (threads (pop_pending hw) !! pid = Some tp) as Htp' by done.
    rewrite (update_thread_Ok _ pid tp SetDead Htp'), bind_Ok.
    eexists _, _, _. split; [reflexivity |].
    split; [| split; [split |]]; [constructor | | |]; host_simpl;
      rewrite ?length_insert, ?Hp; cbn [tail]; try done.
    + intros i t'. destruct (decide (i = pid)) as [-> | Hn1].
      { rewrite list_lookup_insert_eq by (eapply lookup_lt_Some, Htp).
        intros [= <-]. simpl. split; [done | by intros ?]. }
      rewrite list_lookup_insert_ne by done. apply Hrn.
    + intros i t'. destruct (decide (i = pid)) as [-> | Hn1].
      { rewrite list_lookup_insert_eq by (eapply lookup_lt_Some, Htp).
        intros [= <-]. simpl. split; [done | by intros ?]. }
      rewrite list_lookup_insert_ne by done.
      intros Ht. rewrite (Hpn i t' Ht), elem_of_cons. naive_solver.
    + intros i Hi Hr. apply (Hap i Hi). by right.
    + intros i Hi. apply Hpu. by right.
    + intros i Hi. apply Hpin. by right.
    + cbn [fmap list_fmap snd]. by apply NoDup_cons.
Qed.

Lemma evict_loop_index pend (heap : priority_queue) hw killed :
  index_invariant hw -> heap_of_active heap hw ->
  pending_threads hw = pend ->
  ∃ hw' killed', evict_loop pend heap hw killed = Ok (hw', killed') ∧
    index_invariant hw'.
Proof.
  revert heap hw killed.
  induction pend as [| pid rest IH]; intros heap hw killed Hidx Hheap Hp.
  - by exists hw, killed.
  - destruct heap as [| [q aid] heap2]; [by exists hw, killed |].
    destruct (evict_body_index pid rest q aid heap2 hw Hidx Hheap Hp)
      as (heap' & hw1 & k & Hrun & Hidx1 & Hheap1 & Hp1).
    rewrite evict_loop_cons. simpl snd. rewrite Hrun, bind_Ok.
    by apply IH.
Qed.

Lemma reject_leftovers_index pend hw :
  index_invariant hw -> pending_threads hw = pend ->
  ∃ hw', reject_leftovers pend hw = Ok hw' ∧
    index_invariant hw' ∧ pending_threads hw' = [].
Proof.
  revert hw. induction pend as [| j rest IH]; intros hw Hidx Hp.
  - by exists hw.
  - destruct Hidx as [Hrn Hpn Hap Hau Hpu Hsz Hain Hpin Huin Hndp Hund Hpool Hord].
    rewrite Hp in *.
    destruct (lookup_lt_is_Some_2 (threads hw) j) as [t Ht]; [apply Hpin; left |].
    apply NoDup_cons in Hndp as [Hjr Hndr].
    cbn [reject_leftovers]. rewrite (update_thread_Ok hw j t SetDead Ht), bind_Ok.
    apply IH; [| host_simpl; by rewrite Hp].
    constructor; host_simpl; rewrite ?length_insert, ?Hp; cbn [tail]; try done.
    + intros i t'. destruct (decide (i = j)) as [-> | Hn1].
      { rewrite list_lookup_insert_eq by (eapply lookup_lt_Some, Ht).
        intros [= <-]. simpl. split; [done |].
        intros Hi. destruct (Hap j Hi). left. }
      rewrite list_lookup_insert_ne by done. apply Hrn.
    + intros i t'. destruct (decide (i = j)) as [-> | Hn1].
      { rewrite list_lookup_insert_eq by (eapply lookup_lt_Some, Ht).
        intros [= <-]. simpl. split; [done | by intros ?]. }
      rewrite list_lookup_insert_ne by done.
      intros Ht'. rewrite (Hpn i t' Ht'), elem_of_cons. naive_solver.
    + intros i Hi Hr. apply (Hap i Hi). by right.
    + intros i Hi. apply Hpu. by right.
    + intros i Hi. apply Hpin. by right.
Qed.

Lemma pq_emplace_ids (x : heap_entry) (q : priority_queue) :
  (pq_emplace x q).*2 ≡ₚ x.2 :: q.*2.
Proof.
  induction q as [| y q IH]; [done |]. simpl.
  destruct (tuple_ltb x y); [done |]. cbn [fmap list_fmap].
  rewrite IH. apply Permutation_swap.
Qed.

Lemma collect_active_priorities_ids ids (p : Q) hw (heap0 heap : priority_queue) :
  collect_active_priorities ids p hw heap0 = Ok heap ->
  NoDup ids -> NoDup heap0.*2 -> (∀ i, i ∈ ids -> i ∉ heap0.*2) ->
  NoDup heap.*2 ∧ ∀ i, i ∈ heap.*2 -> i ∈ ids ∨ i ∈ heap0.*2.
Proof.
  revert heap0. induction ids as [| j rest IH]; intros heap0 Hrun Hnd Hnd0 Hsep.
  - injection Hrun as <-. split; [done | by right].
  - cbn [collect_active_priorities] in Hrun. bind_inv Hrun.
    apply NoDup_cons in Hnd as [Hj Hnd].
    apply IH in Hrun as [Hres Hin]; [| done | |].
    + split; [done |]. intros i Hi. destruct (Hin i Hi) as [? | Hi'].
      * left. by right.
      * destruct (Qltb _ _); [| by right].
        rewrite pq_emplace_ids in Hi'. apply elem_of_cons in Hi' as [-> | ?].
        -- left. left.
        -- by right.
    + destruct (Qltb _ _); [| done]. rewrite pq_emplace_ids.
      apply NoDup_cons. split; [apply Hsep; left | done].
    + intros i Hi. destruct (Qltb _ _).
      * rewrite pq_emplace_ids. intros [-> | Hi']%elem_of_cons; [done |].
        apply (Hsep i); [by right | done].
      * apply Hsep. by right.
Qed.

Lemma ActivatePendingThreads_index hw :
  index_invariant hw ->
  ∃ hw' killed, ActivatePendingThreads hw = Ok (hw', killed) ∧
    index_invariant hw' ∧ pending_threads hw' = [].
Proof.
  intros Hidx.
  destruct (decide (pending_threads hw = [])) as [Hnil | Hne].
  { exists hw, []. unfold ActivatePendingThreads.
    rewrite bool_decide_eq_true_2 by done.
    split; [done |]. by split. }
  pose proof (index_invariant_consistent hw Hidx) as Hc.
  destruct (fill_capacity_spec (pending_threads hw) hw)
    as (hw1 & Hfill & _); [done | apply Hc | apply Hc | |].
  { intros i. by apply index_consistent_disjoint. }
  pose proof (fill_capacity_index hw hw1 Hidx Hfill) as Hidx1.
  destruct (decide (pending_threads hw1 = [])) as [Hnil1 | Hne1].
  { exists hw1, []. unfold ActivatePendingThreads.
    rewrite bool_decide_eq_false_2 by done. rewrite Hfill, bind_Ok.
    rewrite bool_decide_eq_true_2 by done.
    split; [done |]. by split. }
  pose proof (index_invariant_consistent hw1 Hidx1) as (Hact1 & Hpend1 & _).
  destruct (find_max_pending_priority_spec hw1 Hpend1 Hne1) as (p & Hmax & _).
  destruct (collect_heap_holds hw1 p) as (heap & Hcol & Hholds & _).
  { intros j Hj. eapply state_of_lt. by apply Hact1. }
  assert (heap_of_active heap hw1) as Hheap.
  { destruct (collect_active_priorities_ids _ _ _ _ _ Hcol) as [Hnd Hin].
    - apply NoDup_elements.
    - constructor.
    - intros i _. apply not_elem_of_nil.
    - split; [done |]. intros i Hi.
      destruct (Hin i Hi) as [? | Hi']; [by apply elem_of_elements |].
      by apply elem_of_nil in Hi'. }
  rewrite (ActivatePendingThreads_phase2 hw hw1 p heap) by done.
  unfold evict_and_reject.
  destruct (evict_loop_index (pending_threads hw1) heap hw1 [] Hidx1 Hheap)
    as (hw2 & killed & Hrun2 & Hidx2); [done |].
  rewrite Hrun2, bind_Ok. cbn beta iota.
  destruct (reject_leftovers_index (pending_threads hw2) hw2 Hidx2)
    as (hw3 & Hrun3 & Hidx3 & Hp3); [done |].
  rewrite Hrun3, bind_Ok. exists hw3, killed.
  split; [done |]. by split.
Qed.

(** A round of admission on a hardware whose index is in order ends normally
    with the index in order and the pending queue empty.  In particular the
    active set is still within the [max_active_threads] the round started
    with. *)
Theorem admission_keeps_index hw :
  index_invariant hw ->
  ∃ hw' killed, ActivatePendingThreads hw = Ok (hw', killed) ∧
    index_invariant hw' ∧ pending_threads hw' = [] ∧
    size (active_threads hw') ≤ max_active_threads hw.
Proof.
  intros Hidx.
  destruct (ActivatePendingThreads_index hw Hidx)
    as (hw' & killed & Hrun & Hidx' & Hp).
  exists hw', killed. split; [done |]. split; [done |]. split; [done |].
  destruct (ActivatePendingThreads_frame _ _ _ Hrun) as [_ (_ & _ & <- & _)].
  apply Hidx'.
Qed.

(** ** Where the DEAD threads are after a round *)









(** ** KillThread on its own *)

(** Killing a thread twice is killing it once. *)
Theorem KillThread_idempotent hw hw' i :
  KillThread i hw = Ok hw' -> KillThread i hw' = Ok hw'.
Proof.
  intros (t & Ht & ->)%KillThread_inv.
  assert (i < length (threads hw)) as Hlt by (eapply lookup_lt_Some, Ht).
  erewrite KillThread_Ok; [| host_simpl; by apply list_lookup_insert_eq].
  f_equal. unfold with_threads, with_active_threads. host_simpl. f_equal.
  - apply list_insert_insert_eq.
  - set_solver.
Qed.

(** Killing a thread that is not pending keeps the invariant: the id is out
    of the active set, the thread is DEAD, and the id of a thread that was
    active is still in the execution order. *)
Theorem KillThread_invariant hw hw' i :
  host_invariant hw -> i ∉ pending_threads hw ->
  KillThread i hw = Ok hw' -> host_invariant hw'.
Proof.
  intros [Hidx Hdead] Hip (t & Ht & ->)%KillThread_inv.
  destruct Hidx as [Hrn Hpn Hap Hau Hpu Hsz Hain Hpin Huin Hndp Hund Hpool Hord].
  assert (i < length (threads hw)) as Hlt by (eapply lookup_lt_Some, Ht).
  split; [constructor |]; host_simpl; rewrite ?length_insert; try done.
  - intros j t'. destruct (decide (j = i)) as [-> | Hne].
    + rewrite list_lookup_insert_eq by done. intros [= <-]. simpl.
      split; [done | set_solver].
    + rewrite list_lookup_insert_ne by done. intros Hj.
      rewrite (Hrn j t' Hj). set_solver.
  - intros j t'. destruct (decide (j = i)) as [-> | Hne].
    + rewrite list_lookup_insert_eq by done. intros [= <-]. simpl.
      split; [done | by intros ?].
    + rewrite list_lookup_insert_ne by done. apply Hpn.
  - intros j [Hj _]%elem_of_difference. by apply Hap.
  - intros j [Hj _]%elem_of_difference. by apply Hau.
  - etrans; [| exact Hsz]. apply subseteq_size. set_solver.
  - intros j [Hj _]%elem_of_difference. by apply Hain.
  - intros j [Hj _]%elem_of_difference. by apply Hord.
  - intros j t'. host_simpl. destruct (decide (j = i)) as [-> | Hne].
    + rewrite list_lookup_insert_eq by done. intros _ _.
      destruct (run_state t) eqn:Hs.
      * right. apply Hord. by apply (Hrn i t Ht).
      * by apply (Hdead i t).
      * destruct Hip. by apply (Hpn i t Ht).
    + rewrite list_lookup_insert_ne by done. apply Hdead.
Qed.

(** ** What a round admits, kills and rejects *)

Lemma evict_body_inv pid aid (heap heap' : priority_queue) hw hw' k :
  evict_body pid aid heap hw = Ok (heap', hw', k) ->
  ∃ tp ta, threads hw !! pid = Some tp ∧ threads hw !! aid = Some ta ∧
    pending_threads hw' = tail (pending_threads hw) ∧
    (((priority ta < priority tp)%Q ∧ heap' = pq_pop heap ∧ k = [aid] ∧
      active_threads hw' = {[pid]} ∪ (active_threads hw ∖ {[aid]}) ∧
      thread_exec_order hw' = thread_exec_order hw ++ [pid]) ∨
     ((priority tp <= priority ta)%Q ∧ heap' = heap ∧ k = [] ∧
      active_threads hw' = active_threads hw ∧
      thread_exec_order hw' = thread_exec_order hw)).
Proof.
  unfold evict_body. intros H.
  bind_inv H. rename a into tp. bind_inv H. rename a into ta.
  apply GetThread_Ok in Ha, Ha0. exists tp, ta. split; [done |]. split; [done |].
  unfold GetPriority in H. destruct (Qltb _ _) eqn:Hlt.
  - apply Qltb_lt in Hlt. bind_inv H. bind_inv H. injection H as <- <- <-.
    apply KillThread_inv in Ha1 as (? & _ & ->).
    apply ActivateThread_inv in Ha2 as (? & _ & ->).
    split; [done |]. left. by repeat split.
  - apply Qltb_ge in Hlt. bind_inv H. injection H as <- <- <-.
    apply update_thread_inv in Ha1 as (? & _ & ->).
    split; [done |]. right. by repeat split.
Qed.

Lemma evict_loop_outcome pend (heap : priority_queue) hw killed hw' killed_f :
  evict_loop pend heap hw killed = Ok (hw', killed_f) ->
  pending_threads hw = pend ->
  (∀ i, i ∈ pend -> i ∉ heap.*2) ->
  ∃ k adm, killed_f = killed ++ k ∧
    thread_exec_order hw' = thread_exec_order hw ++ adm ∧
    adm `sublist_of` pend ∧ k `sublist_of` heap.*2 ∧
    length adm = length k ∧
    active_threads hw' =
      (active_threads hw ∪ list_to_set adm) ∖ list_to_set k.
Proof.
  revert heap hw killed.
  induction pend as [| pid rest IH]; intros heap hw killed H Hp Hsep.
  - injection H as <- <-. exists [], []. rewrite !app_nil_r.
    repeat split; [done | apply sublist_nil_l | set_solver].
  - destruct heap as [| [q aid] heap2].
    { injection H as <- <-. exists [], []. rewrite !app_nil_r.
      repeat split; [apply sublist_nil_l | done | set_solver]. }
    rewrite evict_loop_cons in H. simpl snd in H. bind_inv H.
    destruct a as [[heap1 hw1] k1].
    apply evict_body_inv in Ha as (tp & ta & _ & _ & Hp1 & Hcase).
    rewrite Hp in Hp1. cbn [tail] in Hp1.
    assert (pid ≠ aid) as Hne.
    { intros ->. apply (Hsep aid); [left |]. cbn [fmap list_fmap snd]. left. }
    assert (∀ i, i ∈ rest -> i ≠ aid ∧ i ∉ heap2.*2) as Hsep2.
    { intros i Hi. specialize (Hsep i). cbn [fmap list_fmap snd] in Hsep.
      set_solver. }
    destruct Hcase as [(_ & -> & -> & Hact1 & Hord1) | (_ & -> & -> & Hact1 & Hord1)].
    + apply IH in H as (k & adm & -> & Hord & Hadm & Hk & Hlen & Hact);
        [| done | intros i Hi; by apply Hsep2].
      unfold pq_pop in Hk. cbn [tail] in Hk.
      exists (aid :: k), (pid :: adm). rewrite <- app_assoc.
      split; [done |]. split; [by rewrite Hord, Hord1, <- app_assoc |].
      split; [by apply sublist_skip |].
      split; [cbn [fmap list_fmap snd]; by apply sublist_skip |].
      split; [simpl; by rewrite Hlen |].
      rewrite Hact, Hact1.
      assert (aid ∉ adm) as Haid.
      { intros Hin. destruct (Hsep2 aid) as [Hx _]; [| done].
        by eapply elem_of_sublist. }
      assert (pid ∉ k) as Hpid.
      { intros Hin. apply (Hsep pid); [left |].
        cbn [fmap list_fmap snd]. right. by eapply elem_of_sublist. }
      set_solver.
    + apply IH in H as (k & adm & -> & Hord & Hadm & Hk & Hlen & Hact);
        [| done | intros i Hi; specialize (Hsep i); set_solver].
      exists k, adm. rewrite app_nil_r.
      split; [done |]. split; [by rewrite Hord, Hord1 |].
      split; [by apply sublist_cons |].
      split; [done |]. split; [done |]. by rewrite Hact, Hact1.
Qed.

Lemma ActivatePendingThreads_outcome hw hw' killed :
  index_invariant hw ->
  ActivatePendingThreads hw = Ok (hw', killed) ->
  ∃ adm, adm `sublist_of` pending_threads hw ∧
    thread_exec_order hw' = thread_exec_order hw ++ adm ∧
    active_threads hw' =
      (active_threads hw ∪ list_to_set adm) ∖ list_to_set killed ∧
    NoDup killed ∧
    (∀ i, i ∈ killed -> i ∈ active_threads hw ∨ i ∈ adm) ∧
    (killed ≠ [] ∨ adm ≠ pending_threads hw ->
     size (active_threads hw') = max_active_threads hw).
Proof.
  intros Hidx Hrun.
  destruct (decide (pending_threads hw = [])) as [Hnil | Hne].
  { unfold ActivatePendingThreads in Hrun.
    rewrite bool_decide_eq_true_2 in Hrun by done. injection Hrun as <- <-.
    exists []. rewrite app_nil_r, Hnil.
    split; [done |]. split; [done |]. split; [set_solver |].
    split; [constructor |]. split; [set_solver |]. by intros [? | ?]. }
  pose proof (index_invariant_consistent hw Hidx) as Hc.
  destruct (fill_capacity_spec (pending_threads hw) hw)
    as (hw1 & Hfill & Hp1 & Hord1 & Hset1 & _); [done | apply Hc | apply Hc | |].
  { intros i. by apply index_consistent_disjoint. }
  set (n := _ `min` _) in *.
  pose proof (fill_capacity_index hw hw1 Hidx Hfill) as Hidx1.
  pose proof (idx_pending_nodup hw Hidx) as Hnd.
  destruct (decide (pending_threads hw1 = [])) as [Hnil1 | Hne1].
  { unfold ActivatePendingThreads in Hrun.
    rewrite bool_decide_eq_false_2 in Hrun by done.
    rewrite Hfill, bind_Ok in Hrun.
    rewrite bool_decide_eq_true_2 in Hrun by done. injection Hrun as <- <-.
    assert (take n (pending_threads hw) = pending_threads hw) as Htake.
    { rewrite <- (take_drop n (pending_threads hw)) at 2.
      by rewrite <- Hp1, Hnil1, app_nil_r. }
    rewrite Htake in Hord1, Hset1.
    exists (pending_threads hw).
    split; [done |]. split; [done |]. split; [set_solver |].
    split; [constructor |]. split; [set_solver |]. by intros [? | ?]. }
  pose proof (index_invariant_consistent hw1 Hidx1) as (Hact1 & Hpend1 & _).
  destruct (find_max_pending_priority_spec hw1 Hpend1 Hne1) as (p & Hmax & _).
  destruct (collect_heap_holds hw1 p) as (heap & Hcol & Hholds & _).
  { intros j Hj. eapply state_of_lt. by apply Hact1. }
  assert (heap_of_active heap hw1) as Hheap.
  { destruct (collect_active_priorities_ids _ _ _ _ _ Hcol) as [Hnd' Hin].
    - apply NoDup_elements.
    - constructor.
    - intros i _. apply not_elem_of_nil.
    - split; [done |]. intros i Hi.
      destruct (Hin i Hi) as [? | Hi']; [by apply elem_of_elements |].
      by apply elem_of_nil in Hi'. }
  rewrite (ActivatePendingThreads_phase2 hw hw1 p heap) in Hrun by done.
  unfold evict_and_reject in Hrun. bind_inv Hrun. destruct a as [hw2 k2].
  bind_inv Hrun. injection Hrun as <- <-. rename a into hw3.
  destruct (evict_loop_index (pending_threads hw1) heap hw1 [] Hidx1 Hheap)
    as (hw2' & k2' & Hrun2 & Hidx2); [done |].
  rewrite Ha in Hrun2. injection Hrun2 as <- <-.
  apply evict_loop_outcome in Ha
    as (k & adm2 & Hk2 & Hord2 & Hadm2 & Hk & Hlen & Hact2); [| done |].
  2:{ intros i Hi Hh. apply (idx_active_pending hw1 Hidx1 i); [| done].
      by apply Hheap. }
  cbn [app] in Hk2. subst k2.
  destruct (reject_leftovers_spec (pending_threads hw2) hw2)
    as (hw3' & Hrun3 & _ & Hact3 & Hord3 & _); [done | |].
  { apply (idx_pending_in_pool hw2 Hidx2). }
  rewrite Ha0 in Hrun3. injection Hrun3 as <-.
  destruct Hheap as [Hndh Hin].
  assert (∀ i, i ∈ k -> i ∈ active_threads hw1) as Hkin.
  { intros i Hi. apply Hin. by eapply elem_of_sublist. }
  assert (∀ i, i ∈ adm2 -> i ∉ active_threads hw1) as Hadm_out.
  { intros i Hi Hi'. apply (idx_active_pending hw1 Hidx1 i Hi').
    by eapply elem_of_sublist. }
  assert (NoDup k) as Hndk by (by eapply sublist_NoDup).
  assert (NoDup adm2) as Hnda.
  { eapply sublist_NoDup; [apply (idx_pending_nodup hw1 Hidx1) | done]. }
  exists (take n (pending_threads hw) ++ adm2).
  split; [| split; [| split; [| split; [done | split]]]].
  - rewrite <- (take_drop n (pending_threads hw)) at 2.
    apply sublist_app; [done | by rewrite <- Hp1].
  - by rewrite Hord3, Hord2, Hord1, <- app_assoc.
  - rewrite Hact3, Hact2, Hset1, list_to_set_app_L. set_solver.
  - intros i Hi. apply Hkin in Hi. rewrite Hset1 in Hi.
    rewrite elem_of_app. set_solver.
  - intros _. rewrite Hact3, Hact2.
    rewrite size_difference
      by (intros i Hi%elem_of_list_to_set; apply elem_of_union; left; by apply Hkin).
    rewrite size_union
      by (intros i Hi Hi'%elem_of_list_to_set; by apply (Hadm_out i)).
    rewrite !size_list_to_set by done. rewrite Hlen.
    assert (size (active_threads hw1) = max_active_threads hw); [| lia].
    rewrite Hset1, size_union.
    2:{ intros i Hi Hi'%elem_of_list_to_set.
        apply (idx_active_pending hw Hidx i Hi). eapply subseteq_take, Hi'. }
    rewrite size_list_to_set.
    2:{ eapply sublist_NoDup; [exact Hnd | apply sublist_take]. }
    rewrite length_take.
    pose proof (idx_active_bound hw Hidx).
    assert (n < length (pending_threads hw)); [| lia].
    destruct (decide (n < length (pending_threads hw))) as [? | Hge]; [done |].
    destruct Hne1. rewrite Hp1. apply drop_ge. lia.
Qed.

(** A round of admission on a hardware whose index is in order admits a
    subsequence [adm] of the pending queue, in queue order: it appends [adm]
    to the execution order and to nothing else, the active set becomes the
    old one with [adm] added and the killed threads removed, no thread is
    killed twice, every killed thread was active at the start or admitted by
    this round, and every thread that was pending ends RUNNING if it was
    admitted and not killed, and DEAD otherwise. *)
Theorem admission_outcome hw :
  index_invariant hw ->
  ∃ hw' killed adm,
    ActivatePendingThreads hw = Ok (hw', killed) ∧
    adm `sublist_of` pending_threads hw ∧
    thread_exec_order hw' = thread_exec_order hw ++ adm ∧
    active_threads hw' =
      (active_threads hw ∪ list_to_set adm) ∖ list_to_set killed ∧
    NoDup killed ∧
    (∀ i, i ∈ killed -> i ∈ active_threads hw ∨ i ∈ adm) ∧
    (∀ i, i ∈ pending_threads hw ->
       state_of hw' i =
         Some (if bool_decide (i ∈ adm ∧ i ∉ killed) then RUNNING else DEAD)).
Proof.
  intros Hidx.
  destruct (ActivatePendingThreads_index hw Hidx)
    as (hw' & killed & Hrun & Hidx' & Hp').
  destruct (ActivatePendingThreads_outcome hw hw' killed Hidx Hrun)
    as (adm & Hadm & Hord & Hact & Hnd & Hkin & _).
  exists hw', killed, adm. repeat (split; [done |]).
  intros i Hi.
  pose proof (frame_length _ _ (ActivatePendingThreads_frame _ _ _ Hrun)) as Hlen.
  destruct (lookup_lt_is_Some_2 (threads hw') i) as [t' Ht'].
  { rewrite Hlen. by apply (idx_pending_in_pool hw Hidx). }
  pose proof (idx_running hw' Hidx' i t' Ht') as Hrn.
  pose proof (idx_pending hw' Hidx' i t' Ht') as Hpn.
  rewrite Hp' in Hpn. rewrite Hact in Hrn.
  assert (i ∉ active_threads hw) as Hia.
  { intros Hin. by apply (idx_active_pending hw Hidx i). }
  unfold state_of. rewrite Ht'. cbn [fmap option_fmap option_map]. f_equal.
  case_bool_decide as Hd.
  - apply Hrn. set_solver.
  - destruct (run_state t') eqn:Hs; [| done |].
    + destruct Hd. destruct Hrn as [Hrn _]. specialize (Hrn eq_refl). set_solver.
    + destruct Hpn as [Hpn _]. specialize (Hpn eq_refl). set_solver.
Qed.

(** A round of admission kills or rejects a thread only when the active set
    is full at the end: if it killed a thread, or left a thread that was
    pending out of the active set, the active set holds exactly
    [max_active_threads] ids. *)
Theorem admission_full_when_rejecting hw hw' killed :
  index_invariant hw ->
  ActivatePendingThreads hw = Ok (hw', killed) ->
  killed ≠ [] ∨ (∃ i, i ∈ pending_threads hw ∧ i ∉ active_threads hw') ->
  size (active_threads hw') = max_active_threads hw.
Proof.
  intros Hidx Hrun Hcase.
  destruct (ActivatePendingThreads_outcome hw hw' killed Hidx Hrun)
    as (adm & Hadm & Hord & Hact & Hnd & Hkin & Hfull).
  apply Hfull.
  destruct (decide (killed = [])) as [-> | ?]; [| by left].
  right. intros ->. destruct Hcase as [? | (i & Hi & Hout)]; [done |].
  apply Hout. rewrite Hact. set_solver.
Qed.

(** ** Survivors outrank the threads a round turns away *)



(** A round of admission run again right after a round changes nothing and
    kills nothing: the first round left no thread pending. *)
Theorem admission_idempotent hw hw' killed :
  index_invariant hw ->
  ActivatePendingThreads hw = Ok (hw', killed) ->
  ActivatePendingThreads hw' = Ok (hw', []).
Proof.
  intros Hidx Hrun.
  destruct (ActivatePendingThreads_index hw Hidx)
    as (hw2 & killed2 & Hrun2 & _ & Hp).
  rewrite Hrun in Hrun2. injection Hrun2 as <- <-.
  unfold ActivatePendingThreads. by rewrite bool_decide_eq_true_2.
Qed.

(** A round of admission changes no thread but the ones that were pending
    and the ones it kills: every other thread of the pool is after the round
    what it was before, run state included. *)
Theorem admission_leaves_others hw hw' killed :
  index_invariant hw ->
  ActivatePendingThreads hw = Ok (hw', killed) ->
  ∀ i, i ∉ pending_threads hw -> i ∉ killed ->
    threads hw' !! i = threads hw !! i.
Proof.
  intros Hidx Hrun i Hip Hik.
  destruct (ActivatePendingThreads_index hw Hidx)
    as (hw2 & killed2 & Hrun2 & Hidx' & Hp').
  rewrite Hrun in Hrun2. injection Hrun2 as <- <-.
  destruct (ActivatePendingThreads_outcome hw hw' killed Hidx Hrun)
    as (adm & Hadm & _ & Hact & _).
  pose proof (ActivatePendingThreads_frame _ _ _ Hrun) as Hf.
  pose proof (frame_length _ _ Hf) as Hlen.
  destruct Hf as [[Hprio Hexec] _].
  destruct (threads hw !! i) as [t |] eqn:Ht.
  2:{ apply lookup_ge_None. rewrite Hlen. by apply lookup_ge_None. }
  destruct (lookup_lt_is_Some_2 (threads hw') i) as [t' Ht'].
  { rewrite Hlen. eapply lookup_lt_Some, Ht. }
  rewrite Ht'. f_equal.
  assert (priority t' = priority t) as Hp.
  { apply (f_equal (λ l, l !! i)) in Hprio.
    rewrite !list_lookup_fmap, Ht, Ht' in Hprio. by injection Hprio. }
  assert (exec_state t' = exec_state t) as He.
  { apply (f_equal (λ l, l !! i)) in Hexec.
    rewrite !list_lookup_fmap, Ht, Ht' in Hexec. by injection Hexec. }
  assert (run_state t' = run_state t) as Hs.
  { pose proof (idx_running hw Hidx i t Ht) as Hr.
    pose proof (idx_pending hw Hidx i t Ht) as Hpn.
    pose proof (idx_running hw' Hidx' i t' Ht') as Hr'.
    pose proof (idx_pending hw' Hidx' i t' Ht') as Hpn'.
    rewrite Hp' in Hpn'. rewrite Hact in Hr'.
    assert (i ∉ adm) as Hia.
    { intros Hin. apply Hip. by eapply elem_of_sublist. }
    destruct (run_state t) eqn:Hst.
    - apply Hr'. destruct Hr as [Hr _]. specialize (Hr eq_refl). set_solver.
    - destruct (run_state t') eqn:Hst'; [| done |].
      + destruct Hr' as [Hr' _]. specialize (Hr' eq_refl).
        assert (i ∈ active_threads hw) as Hin by set_solver.
        by apply Hr in Hin.
      + destruct Hpn' as [Hpn' _]. specialize (Hpn' eq_refl).
        by apply elem_of_nil in Hpn'.
    - destruct Hip. by apply Hpn. }
  destruct t, t'. simpl in *. by subst.
Qed.

(** ** What the assertions of a round check *)

Lemma IsPending_state hw i t :
  GetThread i hw = Ok t -> IsPending t = true -> state_of hw i = Some PENDING.
Proof.
  intros Ht%GetThread_Ok Hp. apply state_of_Some. exists t. split; [done |].
  unfold IsPending in Hp. by destruct (run_state t).
Qed.

Lemma fill_capacity_asserts pend hw hw' :
  fill_capacity pend hw = Ok hw' -> pending_threads hw = pend ->
  ∃ k, pending_threads hw' = drop k pend ∧
    (∀ i, i ∈ take k pend -> state_of hw i = Some PENDING) ∧
    (∀ i, state_of hw' i = Some PENDING -> state_of hw i = Some PENDING).
Proof.
  revert hw. induction pend as [| j rest IH]; intros hw H Hp; simpl in H.
  - injection H as <-. exists 0. rewrite Hp. split; [done |]. split; [| done].
    intros i Hi. by apply elem_of_nil in Hi.
  - destruct (size (active_threads hw) <? max_active_threads hw).
    + bind_inv H. rename a into t. bind_inv H. apply emp_assert_Ok in Ha0.
      bind_inv H. rename a0 into hw1.
      pose proof (IsPending_state hw j t Ha Ha0) as Hj.
      apply ActivateThread_inv in Ha1 as (t1 & Ht1 & ->).
      apply IH in H as (k & Hk & Htake & Hmono); [| host_simpl; by rewrite Hp].
      assert (∀ i, state_of
                (pop_pending
                   (with_threads (<[j := SetRunning t1]> (threads hw))
                      (with_thread_exec_order (thread_exec_order hw ++ [j])
                         (with_active_threads ({[j]} ∪ active_threads hw) hw))))
                i = Some PENDING -> state_of hw i = Some PENDING) as Hstep.
      { intros i. unfold state_of. host_simpl.
        destruct (decide (i = j)) as [-> | Hne].
        - rewrite list_lookup_insert_eq by (eapply lookup_lt_Some, Ht1). done.
        - by rewrite list_lookup_insert_ne. }
      exists (S k). split; [done |]. split.
      * intros i [-> | Hi]%elem_of_cons; [done |].
        apply (Hstep i). by apply Htake.
      * intros i Hi. apply (Hstep i). by apply Hmono.
    + injection H as <-. exists 0. rewrite Hp. split; [done |]. split; [| done].
      intros i Hi. by apply elem_of_nil in Hi.
Qed.

Lemma raise_max_priority_asserts pend (m p : Q) hw :
  raise_max_priority pend m hw = Ok p ->
  ∀ i, i ∈ pend -> state_of hw i = Some PENDING.
Proof.
  revert m. induction pend as [| j rest IH]; intros m H i Hi; simpl in H.
  - by apply elem_of_nil in Hi.
  - bind_inv H. bind_inv H. apply emp_assert_Ok in Ha0.
    apply elem_of_cons in Hi as [-> | Hi].
    + by eapply IsPending_state.
    + by eapply IH.
Qed.

(** A round of admission that ends normally has found every id of the
    pending queue to be the id of a PENDING thread of the pool: the
    assertions of lines 198-199 and 215-216 let nothing else through,
    whatever the state of the hardware. *)
Theorem admission_requires_pending hw hw' killed :
  ActivatePendingThreads hw = Ok (hw', killed) ->
  ∀ i, i ∈ pending_threads hw -> state_of hw i = Some PENDING.
Proof.
  unfold ActivatePendingThreads. intros H i Hi.
  case_bool_decide as Hnil; [rewrite Hnil in Hi; by apply elem_of_nil in Hi |].
  bind_inv H. rename a into hw1.
  apply fill_capacity_asserts in Ha as (k & Hk & Htake & Hmono); [| done].
  rewrite <- (take_drop k (pending_threads hw)) in Hi.
  apply elem_of_app in Hi as [Hi | Hi]; [by apply Htake |].
  case_bool_decide as Hnil1.
  { rewrite <- Hk, Hnil1 in Hi. by apply elem_of_nil in Hi. }
  bind_inv H. clear H. unfold find_max_pending_priority in Ha.
  destruct (pending_threads hw1) as [| front rest] eqn:Hp1; [done |].
  bind_inv Ha. apply Hmono.
  eapply raise_max_priority_asserts; [exact Ha |]. by rewrite Hk.
Qed.

(** ** The counters *)

(** The active set, the pending queue and the unused stack of a hardware
    whose index is in order never hold more ids between them than the pool
    has threads, and the pool is within [max_thread_space]. *)
Theorem thread_counts_bounded hw :
  index_invariant hw ->
  GetNumActiveThreads hw + GetNumPendingThreads hw + GetNumUnusedThreads hw
    ≤ length (threads hw) ∧
  length (threads hw) ≤ GetMaxThreadSpace hw.
Proof.
  intros [Hrn Hpn Hap Hau Hpu Hsz Hain Hpin Huin Hndp Hund Hpool Hord].
  split; [| done].
  unfold GetNumActiveThreads, GetNumPendingThreads, GetNumUnusedThreads.
  set (P := list_to_set (pending_threads hw) : gset nat).
  set (U := list_to_set (unused_threads hw) : gset nat).
  assert (size (active_threads hw ∪ P ∪ U) =
          size (active_threads hw) + length (pending_threads hw) +
          length (unused_threads hw)) as <-.
  { rewrite size_union, size_union.
    - subst P U. by rewrite !size_list_to_set.
    - intros i Hi Hi'%elem_of_list_to_set. by apply (Hap i).
    - intros i [Hi | Hi%elem_of_list_to_set]%elem_of_union
        Hi'%elem_of_list_to_set.
      + by apply (Hau i).
      + by apply (Hpu i). }
  rewrite <- (length_seq (length (threads hw)) 0).
  rewrite <- (size_list_to_set (C := gset nat) (seq 0 _)) by apply NoDup_seq.
  apply subseteq_size. intros i. subst P U.
  rewrite !elem_of_union, !elem_of_list_to_set, elem_of_seq.
  intros [[Hi | Hi] | Hi]; (split; [lia |]).
  - by apply Hain.
  - by apply Hpin.
  - by apply Huin.
Qed.

(** ** The execution order *)

Lemma exec_order_admission hw hw' killed :
  index_invariant hw -> exec_order_invariant hw ->
  ActivatePendingThreads hw = Ok (hw', killed) ->
  exec_order_invariant hw'.
Proof.
  intros Hidx [Hnd Hin] Hrun.
  destruct (ActivatePendingThreads_index hw Hidx)
    as (hw2 & killed2 & Hrun2 & Hidx' & Hp').
  rewrite Hrun in Hrun2. injection Hrun2 as <- <-.
  destruct (ActivatePendingThreads_outcome hw hw' killed Hidx Hrun)
    as (adm & Hadm & Hord & _).
  pose proof (ActivatePendingThreads_frame _ _ _ Hrun) as Hf.
  pose proof (frame_length _ _ Hf) as Hlen.
  destruct Hf as [_ (_ & _ & _ & _ & Hun & _)].
  unfold exec_order_invariant. rewrite Hord, Hp', Hun, Hlen. split.
  - apply NoDup_app. split; [done |]. split.
    + intros i Hi Hi'. destruct (Hin i Hi) as (_ & _ & Hnp). apply Hnp.
      by eapply elem_of_sublist.
    + eapply sublist_NoDup; [apply (idx_pending_nodup hw Hidx) | done].
  - intros i [Hi | Hi]%elem_of_app.
    + destruct (Hin i Hi) as (? & ? & _). split; [done |]. split; [done |].
      apply not_elem_of_nil.
    + assert (i ∈ pending_threads hw) as Hip by (by eapply elem_of_sublist).
      split; [by apply (idx_pending_in_pool hw Hidx) |].
      split; [by apply (idx_pending_unused hw Hidx) | apply not_elem_of_nil].
Qed.

(** ** Spawning *)

Lemma last_snoc_inv {A : Type} (l : list A) (x : A) :
  last l = Some x -> l = removelast l ++ [x].
Proof.
  intros Hx. destruct l as [| y l] using rev_ind; [done |].
  rewrite last_snoc in Hx. injection Hx as ->. by rewrite removelast_last.
Qed.

(** From here on the statements involve the backend and the event library. *)
Variable exec_state_default : exec_state_t.
Variable Clear : exec_state_t -> exec_state_t.
Variable custom_comp_default : custom_comp_t.
Variable InitThread : Thread -> nat -> Thread.
Variable lib_HandleEvent : event_lib_t -> BaseEvent -> Host -> result Host.

Local Abbreviation spawn_thread :=
  (SpawnThreadWithID exec_state_default Clear InitThread).

Lemma SpawnThreadWithID_reuse module_id (p : Q) hw u i t :
  unused_threads hw = u ++ [i] -> threads hw !! i = Some t ->
  spawn_thread module_id p hw =
    Ok (Some i,
        with_pending_threads (pending_threads hw ++ [i])
          (with_threads (<[i := started Clear InitThread module_id p t]> (threads hw))
             (with_unused_threads u hw))).
Proof.
  intros Hu Ht. unfold SpawnThreadWithID.
  rewrite Hu, last_snoc, removelast_last. simpl.
  assert ((i <? length (threads hw)) = true) as ->.
  { apply Nat.ltb_lt. eapply lookup_lt_Some, Ht. }
  simpl. by rewrite (proj2 (GetThread_Ok _ i t)).
Qed.

Lemma SpawnThreadWithID_grow module_id (p : Q) hw :
  unused_threads hw = [] -> length (threads hw) < max_thread_space hw ->
  spawn_thread module_id p hw =
    Ok (Some (length (threads hw)),
        with_pending_threads (pending_threads hw ++ [length (threads hw)])
          (with_threads
             (threads hw ++ [started Clear InitThread module_id p (Thread_new exec_state_default)])
             hw)).
Proof.
  intros Hu Hlt. unfold SpawnThreadWithID. rewrite Hu. simpl.
  apply Nat.ltb_lt in Hlt. rewrite Hlt. simpl.
  rewrite length_app. simpl.
  assert ((length (threads hw) <? length (threads hw) + 1) = true) as ->.
  { apply Nat.ltb_lt. lia. }
  simpl. unfold GetThread. simpl.
  rewrite lookup_app_r, Nat.sub_diag by lia. simpl.
  do 3 f_equal. unfold with_pending_threads, with_threads. simpl. f_equal.
  rewrite <- (Nat.add_0_r (length (threads hw))) at 1.
  by rewrite insert_app_r.
Qed.

Lemma SpawnThreadWithID_full module_id (p : Q) hw :
  unused_threads hw = [] -> max_thread_space hw ≤ length (threads hw) ->
  spawn_thread module_id p hw = Ok (None, hw).
Proof.
  intros Hu Hle. unfold SpawnThreadWithID.
  rewrite Hu. simpl. apply Nat.ltb_ge in Hle. by rewrite Hle.
Qed.

(** C4.  [SpawnThreadWithID] returns no id exactly when the unused stack is
    empty and the pool has reached [max_thread_space] (a pool within its bound
    is then at [max_thread_space]), and in that case the state is unchanged.
    Otherwise it takes the id on top of the unused stack, or, the stack being
    empty, the index of one thread appended to the pool; that thread is
    reset, gets the given priority, is initialised by the backend, is marked
    PENDING, its id goes to the back of the pending queue, and the id is
    returned. *)
Theorem SpawnThreadWithID_spec module_id (p : Q) hw :
  (∀ i, i ∈ unused_threads hw -> i < length (threads hw)) ->
  let spawn := SpawnThreadWithID exec_state_default Clear InitThread module_id p in
  ((∃ hw', spawn hw = Ok (None, hw')) ↔
     unused_threads hw = [] ∧ max_thread_space hw ≤ length (threads hw)) ∧
  (length (threads hw) ≤ max_thread_space hw ->
     ((∃ hw', spawn hw = Ok (None, hw')) ↔
        unused_threads hw = [] ∧ length (threads hw) = max_thread_space hw)) ∧
  (∀ hw', spawn hw = Ok (None, hw') -> hw' = hw) ∧
  (∀ u i, unused_threads hw = u ++ [i] ->
     ∃ t, threads hw !! i = Some t ∧
       spawn hw =
         Ok (Some i,
             with_pending_threads (pending_threads hw ++ [i])
               (with_threads
                  (<[i := SetPending (InitThread
                            (SetPriority p (Thread_Reset Clear t)) module_id)]>
                     (threads hw))
                  (with_unused_threads u hw)))) ∧
  (unused_threads hw = [] -> length (threads hw) < max_thread_space hw ->
     spawn hw =
       Ok (Some (length (threads hw)),
           with_pending_threads (pending_threads hw ++ [length (threads hw)])
             (with_threads
                (threads hw ++
                   [SetPending (InitThread
                      (SetPriority p
                         (Thread_Reset Clear (Thread_new exec_state_default)))
                      module_id)])
                hw))).
Proof.
  intros Hin spawn.
  assert ((∃ hw', spawn hw = Ok (None, hw')) ↔
     unused_threads hw = [] ∧ max_thread_space hw ≤ length (threads hw)) as Hnone.
  { split.
    - intros [hw' Hrun].
      destruct (last (unused_threads hw)) as [i |] eqn:Hlast.
      + apply last_snoc_inv in Hlast.
        destruct (lookup_lt_is_Some_2 (threads hw) i) as [t Ht].
        { apply Hin. rewrite Hlast. set_solver. }
        unfold spawn in Hrun.
        rewrite (SpawnThreadWithID_reuse _ _ _ _ _ _ Hlast Ht) in Hrun.
        discriminate.
      + apply last_None in Hlast. split; [done |].
        destruct (decide (length (threads hw) < max_thread_space hw)); [| lia].
        unfold spawn in Hrun. rewrite SpawnThreadWithID_grow in Hrun by done.
        discriminate.
    - intros [Hu Hle]. exists hw. by apply SpawnThreadWithID_full. }
  split; [exact Hnone |]. split; [| split; [| split]].
  - intros Hbound. rewrite Hnone. split; intros [? ?]; split; (done || lia).
  - intros hw' Hrun. destruct (proj1 Hnone) as [Hu Hle]; [by eexists |].
    unfold spawn in Hrun. rewrite SpawnThreadWithID_full in Hrun by done.
    by injection Hrun as <-.
  - intros u i Hu.
    destruct (lookup_lt_is_Some_2 (threads hw) i) as [t Ht].
    { apply Hin. rewrite Hu. set_solver. }
    exists t. split; [done |]. by apply SpawnThreadWithID_reuse.
  - intros Hu Hlt. by apply SpawnThreadWithID_grow.
Qed.

(** ** Reset *)

Lemma all_unused_reverse n : all_unused n = reverse (seq 0 n).
Proof.
  unfold all_unused. apply list_eq. intros i.
  rewrite list_lookup_fmap.
  destruct (decide (i < n)) as [Hlt | Hge].
  - rewrite reverse_lookup by (rewrite length_seq; lia).
    rewrite length_seq, !lookup_seq_lt by lia. simpl. f_equal. lia.
  - rewrite (lookup_ge_None_2 (seq 0 n)) by (rewrite length_seq; lia).
    rewrite lookup_ge_None_2; [done |]. rewrite length_reverse, length_seq. lia.
Qed.

Lemma all_unused_elem n i : i ∈ all_unused n ↔ i < n.
Proof.
  rewrite all_unused_reverse, elem_of_reverse, elem_of_seq. lia.
Qed.

Lemma all_unused_NoDup n : NoDup (all_unused n).
Proof. rewrite all_unused_reverse, reverse_Permutation. apply NoDup_seq. Qed.

Lemma all_unused_last n : 0 < n -> ∃ u, all_unused n = u ++ [0].
Proof.
  intros Hn. rewrite all_unused_reverse.
  destruct n as [| n]; [lia |]. exists (reverse (seq 1 n)).
  by rewrite <- cons_seq, reverse_cons.
Qed.

(** C8.  On a hardware that is not executing, [BaseResetState] succeeds; it
    clears the event queue, resets every thread of the pool (DEAD, priority 1,
    execution state cleared), empties the active set, the pending queue and
    the execution order, rebuilds the unused stack as all ids in reverse index
    order, so that the next spawn is handed id 0, sets the current thread id
    to [(size_t)-1], lowers the executing flag, and leaves the custom
    component, the event library and the limits as they were. *)
Theorem BaseResetState_spec hw :
  is_executing hw = false ->
  ∃ hw', BaseResetState Clear hw = Ok hw' ∧
    event_queue hw' = [] ∧
    threads hw' = Thread_Reset Clear <$> threads hw ∧
    (∀ i t', threads hw' !! i = Some t' ->
       run_state t' = DEAD ∧ priority t' = 1%Q ∧
       ∃ t, threads hw !! i = Some t ∧ exec_state t' = Clear (exec_state t)) ∧
    active_threads hw' = ∅ ∧
    pending_threads hw' = [] ∧
    thread_exec_order hw' = [] ∧
    unused_threads hw' = reverse (seq 0 (length (threads hw))) ∧
    (∀ module_id p, 0 < length (threads hw) ->
       ∃ hw'', SpawnThreadWithID exec_state_default Clear InitThread
                 module_id p hw' = Ok (Some 0, hw'')) ∧
    cur_thread_id hw' = NO_THREAD ∧
    is_executing hw' = false ∧
    custom_component hw' = custom_component hw ∧
    event_lib hw' = event_lib hw ∧
    max_active_threads hw' = max_active_threads hw ∧
    max_thread_space hw' = max_thread_space hw.
Proof.
  intros Hex. unfold BaseResetState. rewrite Hex. simpl.
  eexists. split; [reflexivity |]. simpl. rewrite length_fmap.
  split; [done |]. split; [done |]. split.
  { intros i t'. rewrite list_lookup_fmap.
    destruct (threads hw !! i) as [t |]; [| done]. intros [= <-]. simpl.
    split; [done |]. split; [done |]. by exists t. }
  repeat (split; [done |]). split; [apply all_unused_reverse |].
  split; [| done].
  intros module_id p Hpos.
  destruct (all_unused_last _ Hpos) as [u Hu].
  set (hw' := with_is_executing _ _).
  destruct (lookup_lt_is_Some_2 (threads hw') 0) as [t Ht].
  { subst hw'. simpl. by rewrite length_fmap. }
  eexists. eapply SpawnThreadWithID_reuse; [| exact Ht].
  subst hw'. simpl. exact Hu.
Qed.

(** ** The public operations *)

Local Abbreviation run_public :=
  (run_op exec_state_default Clear InitThread lib_HandleEvent).
Local Abbreviation reachable_hw :=
  (reachable exec_state_default Clear custom_comp_default InitThread
     lib_HandleEvent).

Lemma SingleProcess_never_returns fuel hw hw' :
  SingleProcess lib_HandleEvent fuel hw ≠ Ok hw'.
Proof.
  unfold SingleProcess. by destruct (SingleProcess_begin _ _ _).
Qed.

(** With no event queued, the written part of [SingleProcess] runs through on
    a hardware whose index is in order: the round of admission ends normally,
    the assertion [active_threads.size() <= max_active_threads] of line 482
    holds, and the executing flag is raised. *)
Theorem SingleProcess_begin_admits fuel hw :
  index_invariant hw -> event_queue hw = [] ->
  ∃ hw', SingleProcess_begin lib_HandleEvent fuel hw = Ok hw' ∧
    is_executing hw' = true ∧ pending_threads hw' = [] ∧
    size (active_threads hw') ≤ max_active_threads hw' ∧
    index_invariant hw'.
Proof.
  intros Hidx Hq.
  destruct (ActivatePendingThreads_index hw Hidx)
    as (hw1 & killed & Hrun & Hidx1 & Hp).
  unfold SingleProcess_begin.
  assert (handle_events lib_HandleEvent fuel hw = Ok hw) as ->.
  { destruct fuel; simpl; by rewrite Hq. }
  rewrite bind_Ok, Hrun, bind_Ok. cbn beta iota.
  assert ((size (active_threads hw1) <=? max_active_threads hw1) = true) as ->.
  { apply Nat.leb_le, Hidx1. }
  simpl. eexists. split; [reflexivity |]. host_simpl.
  split; [done |]. split; [done |]. split; [apply Hidx1 |].
  destruct Hidx1. by constructor.
Qed.

Lemma SpawnThreadWithID_inv module_id (p : Q) hw r hw' :
  spawn_thread module_id p hw = Ok (r, hw') ->
  (r = None ∧ hw' = hw) ∨
  (∃ u i t, unused_threads hw = u ++ [i] ∧ threads hw !! i = Some t ∧
     r = Some i ∧
     hw' = with_pending_threads (pending_threads hw ++ [i])
             (with_threads (<[i := started Clear InitThread module_id p t]> (threads hw))
                (with_unused_threads u hw))) ∨
  (unused_threads hw = [] ∧ length (threads hw) < max_thread_space hw ∧
     r = Some (length (threads hw)) ∧
     hw' = with_pending_threads (pending_threads hw ++ [length (threads hw)])
             (with_threads
                (threads hw ++ [started Clear InitThread module_id p (Thread_new exec_state_default)])
                hw)).
Proof.
  intros Hrun. destruct (last (unused_threads hw)) as [i |] eqn:Hlast.
  - apply last_snoc_inv in Hlast. right; left.
    destruct (threads hw !! i) as [t |] eqn:Ht.
    + rewrite (SpawnThreadWithID_reuse _ _ _ _ _ _ Hlast Ht) in Hrun.
      injection Hrun as <- <-. by exists (removelast (unused_threads hw)), i, t.
    + exfalso. unfold SpawnThreadWithID in Hrun.
      rewrite Hlast, last_snoc in Hrun. simpl in Hrun.
      apply lookup_ge_None in Ht. apply Nat.ltb_ge in Ht.
      by rewrite Ht in Hrun.
  - apply last_None in Hlast.
    destruct (decide (length (threads hw) < max_thread_space hw)) as [Hlt | Hge].
    + right; right. rewrite SpawnThreadWithID_grow in Hrun by done.
      by injection Hrun as <- <-.
    + left. rewrite SpawnThreadWithID_full in Hrun by (done || lia).
      by injection Hrun as <- <-.
Qed.

(** C9.  [ActivateThread], [KillThread] and [ActivatePendingThreads] change
    no thread's priority or execution state, and outside the pool they change
    only the active set, the pending queue and the execution order.  Of the
    public operations only [SpawnThreadWithID] and [BaseResetState] may change
    a priority or an execution state. *)
Theorem scheduling_keeps_payload :
  (∀ (o : sched_op) hw hw',
     run_sched_op o hw = Ok hw' ->
     same_payload hw hw' ∧ same_outside_index hw hw' ∧
     length (threads hw') = length (threads hw)) ∧
  (∀ (o : host_op) hw hw',
     run_public o hw = Ok hw' -> changes_payload o = false ->
     same_payload hw hw').
Proof.
  split.
  - intros o hw hw' Hrun.
    assert (frame hw hw') as Hf.
    { destruct o as [i | i |]; simpl in Hrun.
      - by eapply ActivateThread_frame.
      - by eapply KillThread_frame.
      - bind_inv Hrun. destruct a as [hw1 killed]. injection Hrun as <-.
        by eapply ActivatePendingThreads_frame. }
    destruct Hf as [Hpay Hout]. split; [done |]. split; [done |].
    destruct Hpay as [Hpay _].
    by rewrite <- (length_fmap priority), Hpay, length_fmap.
  - intros o hw hw' Hrun Hch. destruct o; simpl in Hrun; try discriminate.
    + by injection Hrun as <-.
    + by injection Hrun as <-.
    + by apply SingleProcess_never_returns in Hrun.
Qed.

(** C10.  In every state the public interface can reach the hardware is not
    executing and the current thread id is [(size_t)-1], the greatest value of
    [size_t]; [GetCurThreadID] returns it.  This covers the state right after
    construction and the state right after [BaseResetState]. *)
Theorem cur_thread_id_sentinel hw :
  reachable_hw hw ->
  is_executing hw = false ∧
  cur_thread_id hw = NO_THREAD ∧
  GetCurThreadID hw = size_t_max.
Proof.
  assert (NO_THREAD = size_t_max) as Hs by reflexivity.
  unfold GetCurThreadID. rewrite <- Hs.
  induction 1 as [elib | o hw hw' Hr (IHe & IHc & _) Hrun]; [done |].
  destruct o as [| module_id p | ev | val | fuel]; simpl in Hrun.
  - unfold BaseResetState in Hrun. bind_inv Hrun. by injection Hrun as <-.
  - bind_inv Hrun. destruct a as [r hw1]. injection Hrun as <-.
    apply SpawnThreadWithID_inv in Ha
      as [[_ ->] | [(u & i & t & _ & _ & _ & ->) | (_ & _ & _ & ->)]]; done.
  - by injection Hrun as <-.
  - by injection Hrun as <-.
  - by apply SingleProcess_never_returns in Hrun.
Qed.

(** ** The invariant of the thread-state index *)

Lemma host_invariant_new (elib : event_lib_t) :
  host_invariant (BaseSignalGP_new exec_state_default custom_comp_default elib).
Proof.
  unfold BaseSignalGP_new.
  set (n := if 2 * 64 <? 512 then 2 * 64 else 512).
  assert (n ≤ 512) as Hn by (vm_compute; lia).
  clearbody n. split.
  - constructor; host_simpl; rewrite ?length_replicate.
    + intros i t [-> _]%lookup_replicate. host_simpl. split; [done |].
      intros Hi. by apply not_elem_of_empty in Hi.
    + intros i t [-> _]%lookup_replicate. host_simpl. split; [done |].
      intros Hi. by apply elem_of_nil in Hi.
    + intros i Hi. by apply not_elem_of_empty in Hi.
    + intros i Hi. by apply not_elem_of_empty in Hi.
    + intros i Hi. by apply elem_of_nil in Hi.
    + rewrite size_empty. lia.
    + intros i Hi. by apply not_elem_of_empty in Hi.
    + intros i Hi. by apply elem_of_nil in Hi.
    + intros i. by rewrite all_unused_elem.
    + constructor.
    + apply all_unused_NoDup.
    + done.
    + intros i Hi. by apply not_elem_of_empty in Hi.
  - intros i t [_ Hi]%lookup_replicate _. host_simpl.
    rewrite length_replicate. left. by apply all_unused_elem.
Qed.

Lemma host_invariant_reset hw hw' :
  host_invariant hw -> BaseResetState Clear hw = Ok hw' -> host_invariant hw'.
Proof.
  intros [Hidx _] Hrun. unfold BaseResetState in Hrun. bind_inv Hrun.
  injection Hrun as <-. split.
  - constructor; host_simpl; rewrite ?length_fmap.
    + intros i t Ht. apply list_lookup_fmap_Some in Ht as (t0 & -> & _). host_simpl.
      split; [done |]. intros Hi. by apply not_elem_of_empty in Hi.
    + intros i t Ht. apply list_lookup_fmap_Some in Ht as (t0 & -> & _). host_simpl.
      split; [done |]. intros Hi. by apply elem_of_nil in Hi.
    + intros i Hi. by apply not_elem_of_empty in Hi.
    + intros i Hi. by apply not_elem_of_empty in Hi.
    + intros i Hi. by apply elem_of_nil in Hi.
    + rewrite size_empty. lia.
    + intros i Hi. by apply not_elem_of_empty in Hi.
    + intros i Hi. by apply elem_of_nil in Hi.
    + intros i. by rewrite all_unused_elem.
    + constructor.
    + apply all_unused_NoDup.
    + apply Hidx.
    + intros i Hi. by apply not_elem_of_empty in Hi.
  - intros i t Ht _. host_simpl. rewrite length_fmap. left. apply all_unused_elem.
    rewrite <- (length_fmap (Thread_Reset Clear)). eapply lookup_lt_Some, Ht.
Qed.

Lemma host_invariant_spawn module_id (p : Q) hw r hw' :
  host_invariant hw -> spawn_thread module_id p hw = Ok (r, hw') ->
  host_invariant hw'.
Proof.
  intros Hinv Hrun.
  apply SpawnThreadWithID_inv in Hrun
    as [[_ ->] | [(u & i & t & Hu & Ht & _ & ->) | (Hu & Hlt & _ & ->)]];
    [done | |].
  - (* an unused thread is commandeered *)
    destruct Hinv as
      [[Hrun Hpend Hap Hau Hpu Hsz Hain Hpin Huin Hpnd Hund Hpool Hord] Hdead].
    unfold dead_accounted in *. rewrite Hu in *.
    apply NoDup_app in Hund as (Hund & Hsep & _).
    assert (i ∉ u) as Hiu.
    { intros Hi. apply (Hsep i Hi). set_solver. }
    assert (i ∉ active_threads hw) as Hia.
    { intros Hi. apply (Hau i Hi). set_solver. }
    assert (i ∉ pending_threads hw) as Hip.
    { intros Hi. apply (Hpu i Hi). set_solver. }
    assert (i < length (threads hw)) as Hilt by (eapply lookup_lt_Some, Ht).
    split; [constructor |]; host_simpl; rewrite ?length_insert.
    + intros j t'. destruct (decide (j = i)) as [-> | Hne].
      * rewrite list_lookup_insert_eq by done. intros [= <-]. simpl.
        split; [done | by intros ?].
      * rewrite list_lookup_insert_ne by done. apply Hrun.
    + intros j t'. destruct (decide (j = i)) as [-> | Hne].
      * rewrite list_lookup_insert_eq by done. intros [= <-]. simpl.
        split; [intros _; set_solver | done].
      * rewrite list_lookup_insert_ne by done. intros Hj.
        rewrite (Hpend j t' Hj). set_solver.
    + intros j Hj. specialize (Hap j Hj). set_solver.
    + intros j Hj. specialize (Hau j Hj). set_solver.
    + intros j [Hj | ->%list_elem_of_singleton]%elem_of_app; [| done].
      specialize (Hpu j Hj). set_solver.
    + done.
    + done.
    + intros j [Hj | ->%list_elem_of_singleton]%elem_of_app; [by apply Hpin | done].
    + intros j Hj. apply Huin. set_solver.
    + apply NoDup_app. split; [done |]. split; [set_solver | apply NoDup_singleton].
    + done.
    + done.
    + done.
    + intros j t'. host_simpl. destruct (decide (j = i)) as [-> | Hne].
      * rewrite list_lookup_insert_eq by done. by intros [= <-].
      * rewrite list_lookup_insert_ne by done. intros Hj Hd.
        destruct (Hdead j t' Hj Hd) as [Hin | Hin]; [left; set_solver | by right].
  - (* the pool grows by one thread *)
    destruct Hinv as
      [[Hrun Hpend Hap Hau Hpu Hsz Hain Hpin Huin Hpnd Hund Hpool Hord] Hdead].
    unfold dead_accounted in *.
    set (n := length (threads hw)) in *.
    assert (n ∉ active_threads hw) as Hna.
    { intros Hi. apply Hain in Hi. lia. }
    assert (n ∉ pending_threads hw) as Hnp.
    { intros Hi. apply Hpin in Hi. lia. }
    split; [constructor |]; host_simpl; rewrite ?length_app; cbn [length].
    + intros j t' Hj. apply lookup_snoc_Some in Hj as [[_ Hj] | [-> <-]].
      * by apply Hrun.
      * simpl. split; [done | by intros ?].
    + intros j t' Hj. apply lookup_snoc_Some in Hj as [[Hlt' Hj] | [-> <-]].
      * rewrite (Hpend j t' Hj). fold n in Hlt'.
        rewrite elem_of_app, list_elem_of_singleton. split; [by left |].
        intros [? | ->]; [done | lia].
      * simpl. split; [intros _; set_solver | done].
    + intros j Hj. specialize (Hap j Hj). set_solver.
    + done.
    + intros j _. rewrite Hu. apply not_elem_of_nil.
    + done.
    + intros j Hj. apply Hain in Hj. lia.
    + intros j [Hj | ->%list_elem_of_singleton]%elem_of_app; [| lia].
      apply Hpin in Hj. lia.
    + intros j Hj. apply Huin in Hj. lia.
    + apply NoDup_app. split; [done |]. split; [set_solver | apply NoDup_singleton].
    + done.
    + fold n. lia.
    + done.
    + intros j t' Hj. host_simpl in Hj.
      apply lookup_snoc_Some in Hj as [[_ Hj] | [-> <-]].
      * by apply Hdead.
      * done.
Qed.

(** C6.  The invariant of the thread-state index holds of a freshly
    constructed hardware and is kept by every public operation that returns:
    a thread of the pool is RUNNING iff its id is in the active set and
    PENDING iff its id is in the pending queue, the id of a DEAD thread is in
    the unused stack or in the execution order, the active set, the pending
    queue and the unused stack are pairwise disjoint, and the active set holds
    at most [max_active_threads] ids. *)
Theorem host_invariant_public :
  (∀ elib : event_lib_t,
     host_invariant (BaseSignalGP_new exec_state_default custom_comp_default elib)) ∧
  (∀ (o : host_op) hw hw',
     host_invariant hw -> run_public o hw = Ok hw' -> host_invariant hw').
Proof.
  split; [apply host_invariant_new |].
  intros o hw hw' Hinv Hrun.
  destruct o as [| module_id p | ev | val | fuel]; simpl in Hrun.
  - by eapply host_invariant_reset.
  - bind_inv Hrun. destruct a as [r hw1]. injection Hrun as <-.
    by eapply host_invariant_spawn.
  - injection Hrun as <-. destruct Hinv as [[] ?]. by split.
  - injection Hrun as <-. destruct Hinv as [[] ?]. by split.
  - by apply SingleProcess_never_returns in Hrun.
Qed.

Lemma exec_order_spawn module_id (p : Q) hw r hw' :
  index_invariant hw -> exec_order_invariant hw ->
  spawn_thread module_id p hw = Ok (r, hw') ->
  exec_order_invariant hw'.
Proof.
  intros Hidx [Hnd Hin] Hrun.
  apply SpawnThreadWithID_inv in Hrun
    as [[_ ->] | [(u & i & t & Hu & Ht & _ & ->) | (Hu & Hlt & _ & ->)]];
    [done | |]; split; host_simpl; try done.
  - intros j Hj. destruct (Hin j Hj) as (Hlt & Hnu & Hnp).
    rewrite length_insert. split; [done |]. rewrite Hu in Hnu.
    split; [set_solver |].
    intros [? | ->%list_elem_of_singleton]%elem_of_app; [done |].
    apply Hnu. set_solver.
  - intros j Hj. destruct (Hin j Hj) as (Hlt' & Hnu & Hnp).
    rewrite length_app. cbn [length]. split; [lia |]. split; [done |].
    intros [? | ->%list_elem_of_singleton]%elem_of_app; [done | lia].
Qed.

(** The execution order never lists an id twice: a freshly constructed
    hardware has the property, and on a hardware whose index is in order
    every public operation that returns, [KillThread] and a round of
    admission keep it. *)
Theorem exec_order_kept :
  (∀ elib : event_lib_t,
     exec_order_invariant
       (BaseSignalGP_new exec_state_default custom_comp_default elib)) ∧
  (∀ hw, index_invariant hw -> exec_order_invariant hw ->
     (∀ (o : host_op) hw', run_public o hw = Ok hw' -> exec_order_invariant hw') ∧
     (∀ i hw', KillThread i hw = Ok hw' -> exec_order_invariant hw') ∧
     (∀ hw' killed, ActivatePendingThreads hw = Ok (hw', killed) ->
        exec_order_invariant hw')).
Proof.
  split.
  { intros elib. split; host_simpl; [constructor |].
    intros i Hi. by apply elem_of_nil in Hi. }
  intros hw Hidx Hinv. split; [| split].
  - intros o hw' Hrun.
    destruct o as [| module_id p | ev | val | fuel]; simpl in Hrun.
    + unfold BaseResetState in Hrun. bind_inv Hrun. injection Hrun as <-.
      split; host_simpl; [constructor |].
      intros i Hi. by apply elem_of_nil in Hi.
    + bind_inv Hrun. destruct a as [r hw1]. injection Hrun as <-.
      by eapply exec_order_spawn.
    + by injection Hrun as <-.
    + by injection Hrun as <-.
    + by apply SingleProcess_never_returns in Hrun.
  - intros i hw' (t & Ht & ->)%KillThread_inv. destruct Hinv as [Hnd Hin].
    split; host_simpl; [done |]. intros j Hj. rewrite length_insert. by apply Hin.
  - intros hw' killed Hrun. by eapply exec_order_admission.
Qed.

(** ** Spawning, then admitting *)

(** A thread spawned while the pending queue and the active set together
    leave room is running after the next round of admission: the round kills
    nothing, admits everything that was pending and then the new thread, in
    that order, and leaves the new thread RUNNING. *)
Theorem spawn_then_admit module_id (p : Q) hw i hw1 :
  host_invariant hw ->
  length (pending_threads hw) + size (active_threads hw) < max_active_threads hw ->
  spawn_thread module_id p hw = Ok (Some i, hw1) ->
  ∃ hw2, ActivatePendingThreads hw1 = Ok (hw2, []) ∧
    pending_threads hw2 = [] ∧
    thread_exec_order hw2 = thread_exec_order hw ++ pending_threads hw ++ [i] ∧
    active_threads hw2 =
      active_threads hw ∪ list_to_set (pending_threads hw) ∪ {[i]} ∧
    state_of hw2 i = Some RUNNING.
Proof.
  intros Hinv Hroom Hrun.
  assert (host_invariant hw1) as [Hidx1 _] by (by eapply host_invariant_spawn).
  assert (pending_threads hw1 = pending_threads hw ++ [i] ∧
          active_threads hw1 = active_threads hw ∧
          thread_exec_order hw1 = thread_exec_order hw ∧
          max_active_threads hw1 = max_active_threads hw) as (Hp1 & Ha1 & Ho1 & Hm1).
  { apply SpawnThreadWithID_inv in Hrun
      as [[[=] _] | [(u & j & t & _ & _ & [= ->] & ->) | (_ & _ & [= ->] & ->)]];
      done. }
  pose proof (index_invariant_consistent hw1 Hidx1) as Hc1.
  destruct (fill_capacity_spec (pending_threads hw1) hw1)
    as (hw2 & Hfill & Hp2 & Hord2 & Hset2 & Hthr2);
    [done | apply Hc1 | apply Hc1 | |].
  { intros j. by apply index_consistent_disjoint. }
  assert (length (pending_threads hw1)
            `min` (max_active_threads hw1 - size (active_threads hw1)) =
          length (pending_threads hw1)) as Hk.
  { rewrite Hp1, Ha1, Hm1, length_app. cbn [length]. lia. }
  rewrite Hk in Hp2, Hord2, Hset2, Hthr2.
  rewrite drop_all in Hp2. rewrite firstn_all in Hord2, Hset2, Hthr2.
  exists hw2. unfold ActivatePendingThreads.
  rewrite bool_decide_eq_false_2 by (rewrite Hp1; by destruct (pending_threads hw)).
  rewrite Hfill, bind_Ok. rewrite bool_decide_eq_true_2 by done.
  split; [done |]. split; [done |].
  split; [by rewrite Hord2, Hp1, Ho1 |].
  split; [rewrite Hset2, Hp1, Ha1, list_to_set_app_L; set_solver |].
  assert (i ∈ pending_threads hw1) as Hi by (rewrite Hp1; set_solver).
  unfold state_of. rewrite Hthr2, bool_decide_eq_true_2 by done.
  destruct (lookup_lt_is_Some_2 (threads hw1) i) as [t Ht];
    [by apply (idx_pending_in_pool hw1 Hidx1) |].
  by rewrite Ht.
Qed.

(** ** Reset, twice *)

(** Resetting a hardware that has just been reset changes nothing, provided
    clearing a cleared execution state changes nothing. *)
Theorem BaseResetState_idempotent hw hw1 :
  (∀ e, Clear (Clear e) = Clear e) ->
  BaseResetState Clear hw = Ok hw1 -> BaseResetState Clear hw1 = Ok hw1.
Proof.
  intros Hclear Hrun. unfold BaseResetState in Hrun. bind_inv Hrun.
  injection Hrun as <-. unfold BaseResetState. host_simpl.
  cbn [negb emp_assert]. rewrite bind_Ok.
  assert (Thread_Reset Clear <$> (Thread_Reset Clear <$> threads hw) =
          Thread_Reset Clear <$> threads hw) as ->.
  { rewrite <- list_fmap_compose. apply list_fmap_ext. intros _ t _.
    unfold Thread_Reset. simpl. by rewrite Hclear. }
  by destruct hw.
Qed.

(** ** A batch of spawns *)

Lemma spawn_all_from (requests : list (nat * Q)) j hw :
  let m := j `min` max_thread_space hw in
  pending_threads hw = seq 0 m ->
  unused_threads hw = reverse (seq m (length (threads hw) - m)) ->
  m ≤ length (threads hw) -> length (threads hw) ≤ max_thread_space hw ->
  let n := length requests in
  let m' := (j + n) `min` max_thread_space hw in
  ∃ hw', spawn_all exec_state_default Clear InitThread requests hw =
      Ok ((λ x, if x <? max_thread_space hw then Some x else None) <$> seq j n,
          hw') ∧
    pending_threads hw' = seq 0 m' ∧
    unused_threads hw' = reverse (seq m' (length (threads hw) - m')) ∧
    length (threads hw') = length (threads hw) `max` m' ∧
    max_thread_space hw' = max_thread_space hw.
Proof.
  revert j hw. induction requests as [| [module_id p] rest IH];
    intros j hw m Hp Hu Hm Hpool n m'.
  - exists hw. subst n m'. cbn [length]. rewrite Nat.add_0_r. fold m.
    split; [done |]. split; [done |]. split; [done |]. split; [lia | done].
  - cbn [spawn_all]. subst n. cbn [length seq fmap list_fmap].
    destruct (decide (j < max_thread_space hw)) as [Hj | Hj].
    + assert (m = j) as Hmj by (subst m; lia). rewrite Hmj in *.
      assert (∃ hw1, spawn_thread module_id p hw = Ok (Some j, hw1) ∧
                pending_threads hw1 = seq 0 (S j) ∧
                unused_threads hw1 =
                  reverse (seq (S j) (length (threads hw) - S j)) ∧
                length (threads hw1) = length (threads hw) `max` S j ∧
                max_thread_space hw1 = max_thread_space hw)
        as (hw1 & Hrun & Hp1 & Hu1 & Hl1 & Hs1).
      { destruct (decide (j < length (threads hw))) as [Hlt | Hge].
        - destruct (lookup_lt_is_Some_2 _ _ Hlt) as [t Ht].
          assert (unused_threads hw =
                    reverse (seq (S j) (length (threads hw) - S j)) ++ [j]) as Hu'.
          { rewrite Hu.
            replace (length (threads hw) - j) with (S (length (threads hw) - S j))
              by lia.
            by rewrite <- cons_seq, reverse_cons. }
          eexists. split; [by eapply SpawnThreadWithID_reuse |]. host_simpl.
          rewrite Hp, length_insert, seq_S.
          split; [done |]. split; [done |]. split; [lia | done].
        - assert (j = length (threads hw)) as Hlen by lia.
          assert (unused_threads hw = []) as Hu'.
          { rewrite Hu, <- Hlen, Nat.sub_diag. done. }
          eexists.
          split; [rewrite Hlen; apply SpawnThreadWithID_grow; [done | lia] |].
          host_simpl. rewrite Hp, length_app, <- Hlen, seq_S. cbn [length].
          replace (j - S j) with 0 by lia.
          split; [done |]. split; [done |]. split; [lia | done]. }
      rewrite Hrun, bind_Ok. cbn beta iota.
      destruct (IH (S j) hw1) as (hw' & Hrun' & Hp' & Hu' & Hl' & Hs').
      { rewrite Hs1. replace (S j `min` max_thread_space hw) with (S j) by lia.
        done. }
      { rewrite Hs1. replace (S j `min` max_thread_space hw) with (S j) by lia.
        rewrite Hu1, Hl1. f_equal. f_equal. lia. }
      { rewrite Hs1, Hl1. lia. }
      { rewrite Hs1, Hl1. lia. }
      rewrite Hrun', bind_Ok. cbn beta iota. rewrite Hs1.
      apply Nat.ltb_lt in Hj as Hjb. rewrite Hjb.
      exists hw'. split; [done |]. rewrite Hs1, Hl1 in *.
      subst m'. cbn [length].
      replace (j + S (length rest)) with (S j + length rest) by lia.
      split; [done |]. split; [| split; [lia | done]].
      rewrite Hu'. f_equal. f_equal. lia.
    + assert (m = max_thread_space hw) as Hmj by (subst m; lia).
      rewrite Hmj in *.
      assert (length (threads hw) = max_thread_space hw) as Hlen by lia.
      rewrite SpawnThreadWithID_full, bind_Ok; [| | lia].
      2:{ by rewrite Hu, Hlen, Nat.sub_diag. }
      cbn beta iota.
      destruct (IH (S j) hw) as (hw' & Hrun' & Hp' & Hu' & Hl' & Hs').
      { replace (S j `min` max_thread_space hw) with (max_thread_space hw) by lia.
        done. }
      { replace (S j `min` max_thread_space hw) with (max_thread_space hw) by lia.
        done. }
      { lia. }
      { lia. }
      rewrite Hrun', bind_Ok. cbn beta iota.
      assert ((j <? max_thread_space hw) = false) as -> by (apply Nat.ltb_ge; lia).
      exists hw'. split; [done |].
      subst m'. cbn [length].
      replace (j + S (length rest)) with (S j + length rest) by lia.
      done.
Qed.

(** After a reset, a batch of spawns is handed the ids 0, 1, 2, ... in order,
    whatever modules and priorities it asks for: first the ids of the pool,
    then, the pool growing by one thread at a time, the ids up to
    [max_thread_space]; every request beyond [max_thread_space] is refused.
    The pending queue holds the ids handed out, in order. *)
Theorem spawn_all_after_reset (requests : list (nat * Q)) hw0 hw :
  length (threads hw0) ≤ max_thread_space hw0 ->
  BaseResetState Clear hw0 = Ok hw ->
  let n := length requests in
  let m := n `min` max_thread_space hw0 in
  ∃ hw', spawn_all exec_state_default Clear InitThread requests hw =
      Ok ((λ x, if x <? max_thread_space hw0 then Some x else None) <$> seq 0 n,
          hw') ∧
    pending_threads hw' = seq 0 m ∧
    unused_threads hw' = reverse (seq m (length (threads hw0) - m)) ∧
    length (threads hw') = length (threads hw0) `max` m.
Proof.
  intros Hpool Hrun n m. unfold BaseResetState in Hrun. bind_inv Hrun.
  injection Hrun as <-.
  set (hw := with_is_executing _ _).
  assert (length (threads hw) = length (threads hw0)) as Hlen
    by (subst hw; host_simpl; by rewrite length_fmap).
  destruct (spawn_all_from requests 0 hw) as (hw' & Hrun & Hp & Hu & Hl & _).
  - done.
  - subst hw. host_simpl. rewrite length_fmap, all_unused_reverse.
    by rewrite Nat.sub_0_r.
  - cbn. lia.
  - by rewrite Hlen.
  - exists hw'. rewrite Hlen in *. by subst hw.
Qed.

(** ** Draining the event queue *)

(** When no handler touches the event queue, the loop of lines 475-478
    handles the queued events front to back, each once, in no more
    iterations than there are events, and leaves the queue empty. *)
Theorem handle_events_in_order fuel hw :
  (∀ lib ev h h', lib_HandleEvent lib ev h = Ok h' ->
     event_queue h' = event_queue h) ->
  length (event_queue hw) ≤ fuel ->
  handle_events lib_HandleEvent fuel hw =
    handle_in_order lib_HandleEvent (event_queue hw) hw ∧
  ∀ hw', handle_events lib_HandleEvent fuel hw = Ok hw' -> event_queue hw' = [].
Proof.
  intros Hkeep. remember (event_queue hw) as evs eqn:Hq. symmetry in Hq.
  revert fuel hw Hq. induction evs as [| ev rest IH]; intros fuel hw Hq Hfuel.
  - destruct fuel; simpl; rewrite Hq; split; try done; by intros ? [= <-].
  - destruct fuel as [| fuel]; [simpl in Hfuel; lia |].
    cbn [handle_events handle_in_order]. rewrite Hq.
    assert (with_event_queue (ev :: rest) hw = hw) as ->.
    { rewrite <- Hq. by destruct hw. }
    unfold HandleEvent.
    destruct (lib_HandleEvent (event_lib hw) ev hw) as [hw1 | e] eqn:Hh;
      [| by split].
    rewrite !bind_Ok. apply Hkeep in Hh. rewrite Hh, Hq. cbn [tail].
    apply IH; [done | simpl in Hfuel; lia].
Qed.

(** ** Process *)


End Properties.

(** ** The scenarios *)

Lemma index_consistentb_sound {E C L : Type} (hw : @Host E C L) :
  index_consistentb hw = true -> index_consistent hw.
Proof.
  unfold index_consistentb.
  intros [[Ha Hp]%andb_prop Hn]%andb_prop.
  apply bool_decide_eq_true in Ha, Hp, Hn.
  rewrite Forall_forall in Ha, Hp.
  split; [| split; [exact Hp | exact Hn]].
  intros i Hi. by apply Ha, elem_of_elements.
Qed.

(** S1: everything fits, all three pending threads run. *)
Example scenario_S1 :
  ∃ hw', ActivatePendingThreads Scenario.s1 = Ok (hw', []) ∧
    active_threads hw' = {[0; 1; 2]} ∧ pending_threads hw' = [] ∧
    thread_exec_order hw' = [0; 1; 2].
Proof.
  eexists. split; [vm_compute; reflexivity |].
  split; [| split]; by vm_compute.
Qed.

(** S3: a pending thread of equal priority does not evict and is DEAD. *)
Example scenario_S3 :
  ∃ hw', ActivatePendingThreads Scenario.s3 = Ok (hw', []) ∧
    active_threads hw' = {[0]} ∧
    run_state <$> threads hw' = [RUNNING; DEAD].
Proof.
  eexists. split; [vm_compute; reflexivity |]. split; by vm_compute.
Qed.

(** S4: C evicts A, the active thread of least priority; B is immune. *)
Example scenario_S4 :
  ∃ hw', ActivatePendingThreads Scenario.s4 = Ok (hw', [0]) ∧
    active_threads hw' = {[1; 2]} ∧
    run_state <$> threads hw' = [DEAD; RUNNING; RUNNING].
Proof.
  eexists. split; [vm_compute; reflexivity |]. split; by vm_compute.
Qed.

(** S5: B evicts A; the heap is then empty and C is rejected. *)
Example scenario_S5 :
  ∃ hw', ActivatePendingThreads Scenario.s5 = Ok (hw', [0]) ∧
    active_threads hw' = {[1]} ∧
    run_state <$> threads hw' = [DEAD; RUNNING; DEAD].
Proof.
  eexists. split; [vm_compute; reflexivity |]. split; by vm_compute.
Qed.

(** S6: the fourth spawn finds no unused thread and no room. *)
Example scenario_S6 :
  SpawnThreadWithID 0 Scenario.Clear Scenario.InitThread 7 1 Scenario.s6 =
    Ok (None, Scenario.s6).
Proof. reflexivity. Qed.

(** A thread rejected by a round is DEAD and is neither in the unused stack
    nor in the execution order when the round ends. *)
Example rejected_thread_is_nowhere :
  ∃ hw', ActivatePendingThreads Scenario.s3 = Ok (hw', []) ∧
    state_of hw' 1 = Some DEAD ∧
    (1 ∉ unused_threads hw') ∧ (1 ∉ thread_exec_order hw').
Proof.
  eexists. split; [vm_compute; reflexivity |].
  split; [by vm_compute |]. split; cbn; set_solver.
Qed.

(** ** Instances of the theorems *)

Lemma phase2_bound_and_immunity_witness :
  ∃ hw' killed, ActivatePendingThreads Scenario.s4 = Ok (hw', killed) ∧
    (1 ∉ killed) ∧ 1 ∈ active_threads hw' ∧ state_of hw' 1 = Some RUNNING.
Proof.
  destruct (phase2_bound_and_immunity Scenario.s4 Scenario.s4)
    as (p & heap & hw' & killed & Hmax & _ & _ & _ & _ & Hrun & _ & Himm).
  - apply index_consistentb_sound. vm_compute. reflexivity.
  - vm_compute. reflexivity.
  - discriminate.
  - exists hw', killed. split; [exact Hrun |].
    apply (Himm 1 3%Q).
    + vm_compute. reflexivity.
    + reflexivity.
    + vm_compute in Hmax. injection Hmax as <-. unfold Qle. simpl. lia.
Defined.

Lemma evict_body_rule_witness :
  ∃ hw', evict_body 2 0 [(1%Q, 0)] Scenario.s4 = Ok ([], hw', [0]) ∧
    pending_threads hw' = [] ∧
    threads hw' !! 0 = Some (Scenario.th 1 DEAD) ∧
    threads hw' !! 2 = Some (Scenario.th 2 RUNNING).
Proof.
  destruct (evict_body_rule Scenario.s4 2 [] 1%Q 0 []
              (Scenario.th 2 PENDING) (Scenario.th 1 RUNNING))
    as (_ & Hevict & _ & _).
  - reflexivity.
  - reflexivity.
  - reflexivity.
  - reflexivity.
  - reflexivity.
  - repeat constructor.
  - destruct Hevict as (hw' & Hrun & _ & Hp & _ & Ha & Hb & _).
    + unfold Qlt. simpl. lia.
    + exists hw'. repeat split; assumption.
Defined.

Lemma fill_capacity_fifo_witness :
  ∃ hw', ActivatePendingThreads Scenario.s1 = Ok (hw', []) ∧
    pending_threads hw' = [] ∧ thread_exec_order hw' = [0; 1; 2].
Proof.
  destruct (fill_capacity_fifo Scenario.s1) as [_ Hfast].
  - apply index_consistentb_sound. vm_compute. reflexivity.
  - destruct Hfast as (hw' & Hrun & Hp & Hord & _).
    + vm_compute. lia.
    + exists hw'. split; [exact Hrun |]. split; [exact Hp | exact Hord].
Defined.

Lemma SpawnThreadWithID_spec_witness :
  (∃ hw', SpawnThreadWithID 0 Scenario.Clear Scenario.InitThread 7 1
            Scenario.s6 = Ok (None, hw')) ∧
  (∃ t, threads Scenario.s1 !! 3 = Some t ∧
     SpawnThreadWithID 0 Scenario.Clear Scenario.InitThread 7 (5 # 2)
       Scenario.s1 =
       Ok (Some 3,
           with_pending_threads [0; 1; 2; 3]
             (with_threads
                (<[3 := SetPending (Scenario.InitThread
                          (SetPriority (5 # 2) (Thread_Reset Scenario.Clear t)) 7)]>
                   (threads Scenario.s1))
                (with_unused_threads [] Scenario.s1)))).
Proof.
  split.
  - destruct (SpawnThreadWithID_spec 0 Scenario.Clear Scenario.InitThread 7 1
                Scenario.s6) as ([_ Hnone] & _).
    + intros i Hi. vm_compute in Hi. by apply elem_of_nil in Hi.
    + apply Hnone. split; [reflexivity | vm_compute; lia].
  - destruct (SpawnThreadWithID_spec 0 Scenario.Clear Scenario.InitThread 7 (5 # 2)
                Scenario.s1) as (_ & _ & _ & Hreuse & _).
    + intros i Hi. apply list_elem_of_singleton in Hi as ->. vm_compute. lia.
    + exact (Hreuse [] 3 eq_refl).
Defined.

Lemma admission_monotone_witness :
  ∃ hw' killed, ActivatePendingThreads Scenario.s3 = Ok (hw', killed) ∧
    (0 ∉ killed) ∧ 0 ∈ active_threads hw' ∧ state_of hw' 0 = Some RUNNING.
Proof.
  destruct (admission_monotone Scenario.s3) as (hw' & killed & Hrun & Hkeep).
  - apply index_consistentb_sound. vm_compute. reflexivity.
  - intros i j p q Hi Hj Hp Hq.
    apply list_elem_of_singleton in Hi as ->.
    assert (j = 0) as -> by (cbn in Hj; set_solver).
    vm_compute in Hp, Hq. injection Hp as <-. injection Hq as <-.
    unfold Qle. simpl. lia.
  - exists hw', killed. split; [exact Hrun |]. apply Hkeep. cbn. set_solver.
Defined.

(** The claim of C5 read to the letter fails: with nothing active and A:1,
    B:2 pending under [max_active_threads = 1], no pending thread is above an
    active one, Phase 1 admits A, and Phase 2 kills A for B. *)
Lemma admission_kills_phase1_admittee :
  index_consistent Scenario.two_pending ∧
  no_pending_above_active Scenario.two_pending ∧
  ¬ kills_nothing Scenario.two_pending.
Proof.
  split; [| split].
  - apply index_consistentb_sound. vm_compute. reflexivity.
  - intros i j p q _ Hj. cbn in Hj. set_solver.
  - intros Hk.
    assert (∃ hw', ActivatePendingThreads Scenario.two_pending = Ok (hw', [0]))
      as [hw' Hrun] by (eexists; vm_compute; reflexivity).
    by specialize (Hk hw' [0] Hrun).
Qed.

Lemma BaseResetState_spec_witness :
  ∃ hw', BaseResetState Scenario.Clear Scenario.s4 = Ok hw' ∧
    unused_threads hw' = [2; 1; 0] ∧ active_threads hw' = ∅ ∧
    cur_thread_id hw' = NO_THREAD ∧ is_executing hw' = false.
Proof.
  destruct (BaseResetState_spec 0 Scenario.Clear Scenario.InitThread Scenario.s4)
    as (hw' & Hrun & _ & _ & _ & Hact & _ & _ & Hun & _ & Hcur & Hex & _).
  - reflexivity.
  - exists hw'. repeat split; assumption.
Defined.

Lemma scheduling_keeps_payload_witness :
  same_payload Scenario.s4 Scenario.s4_admitted ∧
  same_payload Scenario.fresh
    (QueueEvent {| id := 5 |} Scenario.fresh).
Proof.
  destruct (scheduling_keeps_payload 0 Scenario.Clear Scenario.InitThread
              Scenario.lib_HandleEvent) as [Hsched Hpublic].
  split.
  - apply (Hsched OpActivatePendingThreads Scenario.s4 Scenario.s4_admitted).
    vm_compute. reflexivity.
  - apply (Hpublic (OpQueueEvent {| id := 5 |})); reflexivity.
Defined.

Lemma cur_thread_id_sentinel_witness :
  is_executing Scenario.spawned_reset = false ∧
  cur_thread_id Scenario.spawned_reset = NO_THREAD ∧
  GetCurThreadID Scenario.spawned_reset = size_t_max.
Proof.
  apply (cur_thread_id_sentinel 0 Scenario.Clear tt Scenario.InitThread
           Scenario.lib_HandleEvent).
  apply (reachable_op _ _ _ _ _ OpBaseResetState Scenario.spawned);
    [| vm_compute; reflexivity].
  apply (reachable_op _ _ _ _ _ (OpSpawnThreadWithID 3 (5 # 2)) Scenario.fresh);
    [| vm_compute; reflexivity].
  apply reachable_new.
Defined.

Lemma host_invariant_public_witness :
  host_invariant Scenario.fresh ∧ host_invariant Scenario.spawned.
Proof.
  destruct (host_invariant_public 0 Scenario.Clear tt Scenario.InitThread
              Scenario.lib_HandleEvent) as [Hnew Hstep].
  split; [apply Hnew |].
  apply (Hstep (OpSpawnThreadWithID 3 (5 # 2)) Scenario.fresh);
    [apply Hnew | vm_compute; reflexivity].
Defined.

(** C7.  [SingleProcess] does not look at the executing flag.  On S3 with the
    flag raised it handles the events and runs the admission round exactly as
    on S3 itself (B is rejected), raises the flag again, and ends at the
    [emp_assert(false)] of the unfinished stub, where [BaseResetState] on the
    same hardware fails at its guard. *)
Theorem SingleProcess_ignores_executing_flag :
  is_executing Scenario.s3_executing = true ∧
  SingleProcess_begin Scenario.lib_HandleEvent 0 Scenario.s3_executing =
    SingleProcess_begin Scenario.lib_HandleEvent 0 Scenario.s3 ∧
  (∃ hw', SingleProcess_begin Scenario.lib_HandleEvent 0 Scenario.s3_executing
            = Ok hw' ∧
     state_of hw' 1 = Some DEAD ∧ pending_threads hw' = [] ∧
     is_executing hw' = true) ∧
  SingleProcess Scenario.lib_HandleEvent 0 Scenario.s3_executing = Fail Unfinished ∧
  SingleProcess Scenario.lib_HandleEvent 0 Scenario.s3 = Fail Unfinished ∧
  BaseResetState Scenario.Clear Scenario.s3_executing = Fail ResetWhileExecuting.
Proof.
  split; [reflexivity |]. split; [by vm_compute |].
  split; [eexists; split; [vm_compute; reflexivity | by vm_compute] |].
  split; [by vm_compute |]. split; [by vm_compute | reflexivity].
Qed.

(** ** Instances of the properties of a round *)

(** S5 satisfies the invariant. *)
Lemma s5_invariant : host_invariant Scenario.s5.
Proof.
  split; [constructor |]; cbn.
  - intros [| [| [| i]]] t [= <-]; cbn; split; (done || set_solver).
  - intros [| [| [| i]]] t [= <-]; cbn; split; (done || set_solver).
  - set_solver.
  - set_solver.
  - set_solver.
  - rewrite union_empty_r_L, size_singleton. lia.
  - intros i Hi. assert (i = 0) as -> by set_solver. lia.
  - intros i [-> | [-> | Hi]%elem_of_cons]%elem_of_cons; [lia | lia |].
    by apply elem_of_nil in Hi.
  - intros i Hi. by apply elem_of_nil in Hi.
  - repeat constructor; set_solver.
  - constructor.
  - lia.
  - set_solver.
  - intros [| [| [| i]]] t [= <-]; by cbn.
Qed.

Lemma admission_keeps_index_witness :
  ∃ hw' killed, ActivatePendingThreads Scenario.s5 = Ok (hw', killed) ∧
    index_invariant hw' ∧ pending_threads hw' = [] ∧
    size (active_threads hw') ≤ 1.
Proof.
  apply (admission_keeps_index Scenario.s5). apply s5_invariant.
Defined.


Lemma KillThread_idempotent_witness :
  KillThread 0 (Scenario.state_after (KillThread 0 Scenario.s5) Scenario.s5) =
    Ok (Scenario.state_after (KillThread 0 Scenario.s5) Scenario.s5).
Proof. apply (KillThread_idempotent Scenario.s5). reflexivity. Defined.

Lemma KillThread_invariant_witness :
  host_invariant (Scenario.state_after (KillThread 0 Scenario.s5) Scenario.s5).
Proof.
  apply (KillThread_invariant Scenario.s5 _ 0 s5_invariant); [| reflexivity].
  cbn. set_solver.
Defined.

Lemma SingleProcess_begin_admits_witness :
  ∃ hw', SingleProcess_begin Scenario.lib_HandleEvent 0 Scenario.s5 = Ok hw' ∧
    is_executing hw' = true ∧ pending_threads hw' = [] ∧
    size (active_threads hw') ≤ max_active_threads hw' ∧
    index_invariant hw'.
Proof.
  apply (SingleProcess_begin_admits Scenario.lib_HandleEvent 0 Scenario.s5).
  - apply s5_invariant.
  - reflexivity.
Defined.

Lemma collect_active_priorities_order_witness :
  collect_active_priorities [1; 0] 2 Scenario.s4 [] =
  collect_active_priorities [0; 1] 2 Scenario.s4 [].
Proof.
  apply collect_active_priorities_order.
  - apply Permutation_swap.
  - apply NoDup_cons. split; [| apply NoDup_singleton].
    intros H%list_elem_of_singleton. discriminate.
Defined.

(** ** Instances of the further properties *)

(** S4 satisfies the invariant. *)
Lemma s4_invariant : host_invariant Scenario.s4.
Proof.
  split; [constructor |]; cbn.
  - intros [| [| [| i]]] t [= <-]; cbn; split; (done || set_solver).
  - intros [| [| [| i]]] t [= <-]; cbn; split; (done || set_solver).
  - set_solver.
  - set_solver.
  - set_solver.
  - rewrite union_empty_r_L, size_union, !size_singleton by set_solver. lia.
  - intros i Hi. assert (i = 0 ∨ i = 1) as [-> | ->] by set_solver; lia.
  - intros i [-> | Hi]%elem_of_cons; [lia |]. by apply elem_of_nil in Hi.
  - intros i Hi. by apply elem_of_nil in Hi.
  - repeat constructor; set_solver.
  - constructor.
  - lia.
  - set_solver.
  - intros [| [| [| i]]] t [= <-]; by cbn.
Qed.

Lemma admission_outcome_witness :
  ∃ hw' killed adm,
    ActivatePendingThreads Scenario.s5 = Ok (hw', killed) ∧
    adm `sublist_of` [1; 2] ∧
    thread_exec_order hw' = [0] ++ adm ∧
    active_threads hw' = ({[0]} ∪ list_to_set adm) ∖ list_to_set killed ∧
    NoDup killed.
Proof.
  destruct (admission_outcome Scenario.s5 (proj1 s5_invariant))
    as (hw' & killed & adm & Hrun & Hadm & Hord & Hact & Hnd & _).
  exists hw', killed, adm. cbn in Hact. rewrite union_empty_r_L in Hact.
  by repeat split.
Defined.

Lemma admission_full_when_rejecting_witness :
  size (active_threads Scenario.s5_admitted) = max_active_threads Scenario.s5.
Proof.
  apply (admission_full_when_rejecting Scenario.s5 Scenario.s5_admitted [0]
           (proj1 s5_invariant) eq_refl).
  left. discriminate.
Defined.


Lemma admission_idempotent_witness :
  ActivatePendingThreads Scenario.s5_admitted = Ok (Scenario.s5_admitted, []).
Proof.
  apply (admission_idempotent Scenario.s5 Scenario.s5_admitted [0]
           (proj1 s5_invariant) eq_refl).
Defined.

Lemma thread_counts_bounded_witness :
  GetNumActiveThreads Scenario.s5 + GetNumPendingThreads Scenario.s5 +
    GetNumUnusedThreads Scenario.s5 ≤ 3 ∧
  3 ≤ GetMaxThreadSpace Scenario.s5.
Proof.
  apply (thread_counts_bounded Scenario.s5 (proj1 s5_invariant)).
Defined.

Lemma exec_order_kept_witness :
  exec_order_invariant Scenario.fresh ∧
  exec_order_invariant Scenario.s5_admitted.
Proof.
  destruct (exec_order_kept 0 Scenario.Clear tt Scenario.InitThread
              Scenario.lib_HandleEvent) as [Hnew Hstep].
  split; [apply Hnew |].
  destruct (Hstep Scenario.s5 (proj1 s5_invariant)) as (_ & _ & Hadm).
  - split; cbn.
    + apply NoDup_singleton.
    + intros i ->%list_elem_of_singleton. split; [lia |]. set_solver.
  - apply (Hadm Scenario.s5_admitted [0]). reflexivity.
Defined.

Lemma spawn_then_admit_witness :
  ∃ hw2, ActivatePendingThreads Scenario.spawned = Ok (hw2, []) ∧
    pending_threads hw2 = [] ∧
    thread_exec_order hw2 = [0] ∧
    state_of hw2 0 = Some RUNNING.
Proof.
  destruct (spawn_then_admit 0 Scenario.Clear Scenario.InitThread 3 (5 # 2)
              Scenario.fresh 0 Scenario.spawned)
    as (hw2 & Hrun & Hp & Hord & _ & Hst).
  - apply (host_invariant_new 0 tt tt).
  - vm_compute. lia.
  - vm_compute. reflexivity.
  - exists hw2. by repeat split.
Defined.

Lemma BaseResetState_idempotent_witness :
  BaseResetState Scenario.Clear Scenario.spawned_reset = Ok Scenario.spawned_reset.
Proof.
  apply (BaseResetState_idempotent Scenario.Clear Scenario.spawned).
  - reflexivity.
  - vm_compute. reflexivity.
Defined.

Lemma spawn_all_after_reset_witness :
  ∃ hw', spawn_all 0 Scenario.Clear Scenario.InitThread
           [(7, 1%Q); (7, 2%Q); (8, 1%Q); (8, 3%Q); (9, 1%Q)]
           (Scenario.state_after (BaseResetState Scenario.Clear Scenario.s4)
              Scenario.s4) =
         Ok ([Some 0; Some 1; Some 2; Some 3; None], hw') ∧
    pending_threads hw' = [0; 1; 2; 3] ∧ unused_threads hw' = [] ∧
    length (threads hw') = 4.
Proof.
  apply (spawn_all_after_reset 0 Scenario.Clear Scenario.InitThread
           [(7, 1%Q); (7, 2%Q); (8, 1%Q); (8, 3%Q); (9, 1%Q)] Scenario.s4).
  - cbn. lia.
  - reflexivity.
Defined.

Lemma handle_events_in_order_witness :
  handle_events Scenario.lib_HandleEvent 2
    (QueueEvent {| id := 7 |} (QueueEvent {| id := 5 |} Scenario.s5)) =
  handle_in_order Scenario.lib_HandleEvent [{| id := 5 |}; {| id := 7 |}]
    (QueueEvent {| id := 7 |} (QueueEvent {| id := 5 |} Scenario.s5)) ∧
  ∀ hw', handle_events Scenario.lib_HandleEvent 2
           (QueueEvent {| id := 7 |} (QueueEvent {| id := 5 |} Scenario.s5)) =
         Ok hw' -> event_queue hw' = [].
Proof.
  apply (handle_events_in_order Scenario.lib_HandleEvent 2
           (QueueEvent {| id := 7 |} (QueueEvent {| id := 5 |} Scenario.s5))).
  - intros lib ev h h' [= <-]. reflexivity.
  - cbn. lia.
Defined.

Lemma admission_leaves_others_witness :
  threads Scenario.s4_admitted !! 1 = threads Scenario.s4 !! 1.
Proof.
  apply (admission_leaves_others Scenario.s4 Scenario.s4_admitted [0]
           (proj1 s4_invariant) eq_refl).
  - cbn. set_solver.
  - set_solver.
Defined.

Lemma admission_requires_pending_witness :
  state_of Scenario.s5 1 = Some PENDING ∧ state_of Scenario.s5 2 = Some PENDING.
Proof.
  split;
    apply (admission_requires_pending Scenario.s5 Scenario.s5_admitted [0] eq_refl);
    cbn; set_solver.
Defined.
